(** * The Pursuit of Fairness: audit-proof anchoring pipeline

    A shallow embedding of the two pieces of the repository that the
    specification calls "the core":

    - the Walrus uploader script ([extractJson], [parseWalrus], [upload] and
      the command-line guard), a Node.js program;
    - the Move module [0x0::oracle] ([init_table], [anchor_audit],
      [proof_count]).

    Definitions come first, theorems afterwards. *)

From Stdlib Require Import ZArith NArith Lia String Ascii.
From stdpp Require Import base option list gmap.

Local Open Scope N_scope.

(* ===================================================================== *)
(** * Part I. The Move module [0x0::oracle]                               *)
(* ===================================================================== *)

Module Oracle.

(** Move's [u64] and [u8].  The module performs no arithmetic on them, so
    no wrap-around is ever computed; the Move VM rejects ill-typed
    arguments before the entry function runs. *)
Definition u64 := N.
Definition u8 := Byte.byte.

(** [sui::object::UID].  Sui derives a fresh identifier from the digest of
    the running transaction and the number of objects the transaction has
    created so far; the derivation is a collision-resistant hash, kept
    here as the pair it is computed from. *)
Definition UID : Type := N * N.

(** [sui::tx_context::TxContext], the two fields [object::new] uses. *)
Record TxContext := mkTxContext { tx_hash : N; ids_created : N }.

(** [object::new(ctx)]. *)
Definition object_new (ctx : TxContext) : UID * TxContext :=
  ((tx_hash ctx, ids_created ctx),
   {| tx_hash := tx_hash ctx; ids_created := ids_created ctx + 1 |}).

(** [struct AuditProof has store]. *)
Record AuditProof := mkAuditProof {
  bundle_hash : list u8;
  fairness_score : u64;
  timestamp : u64
}.

(** [struct AuditTable has key, store]. *)
Record AuditTable := mkAuditTable {
  id : UID;
  proofs : list AuditProof
}.

(** The shared objects of the chain are kept by identifier, in a
    [gmap UID AuditTable]: [transfer::share_object] publishes into it,
    and a transaction that names a shared object receives it from
    there. *)

(** [public entry fun init_table(ctx: &mut TxContext)]. *)
Definition init_table (ctx : TxContext) (shared : gmap UID AuditTable)
  : TxContext * gmap UID AuditTable :=
  let '(uid, ctx') := object_new ctx in
  let table := {| id := uid; proofs := [] |} in
  (ctx', <[uid := table]> shared).

(** [public entry fun anchor_audit(table: &mut AuditTable, bundle_hash,
    fairness_score, timestamp)]: [vector::push_back] on [table.proofs]. *)
Definition anchor_audit (table : AuditTable) (bundle_hash : list u8)
    (fairness_score timestamp : u64) : AuditTable :=
  let proof := {| bundle_hash := bundle_hash;
                  fairness_score := fairness_score;
                  timestamp := timestamp |} in
  {| id := id table; proofs := proofs table ++ [proof] |}.

(** [public fun proof_count(table: &AuditTable): u64]. *)
Definition proof_count (table : AuditTable) : u64 :=
  N.of_nat (length (proofs table)).

(** ** Transactions against the shared store

    An entry call names its table by identifier.  The call aborts (here:
    [None]) when no shared table has that identifier; otherwise the
    function body runs on the table and the result is written back. *)
Definition call_anchor_audit (shared : gmap UID AuditTable) (ref : UID)
    (bundle_hash : list u8) (fairness_score timestamp : u64)
  : option (gmap UID AuditTable) :=
  table ← shared !! ref;
  Some (<[ref := anchor_audit table bundle_hash fairness_score timestamp]> shared).

Definition call_proof_count (shared : gmap UID AuditTable) (ref : UID)
  : option u64 :=
  proof_count <$> shared !! ref.

(** The arguments of one [anchor_audit] call. *)
Record anchor_args := mkArgs {
  arg_hash : list u8;
  arg_score : u64;
  arg_time : u64
}.

Definition proof_of (a : anchor_args) : AuditProof :=
  {| bundle_hash := arg_hash a;
     fairness_score := arg_score a;
     timestamp := arg_time a |}.

(** A sequence of [anchor_audit] calls applied one at a time, in the
    order they commit. *)
Definition anchor_all (table : AuditTable) (calls : list anchor_args)
  : AuditTable :=
  foldl (fun t a => anchor_audit t (arg_hash a) (arg_score a) (arg_time a))
        table calls.

(** The operations the module offers on an existing table. *)
Inductive ledger_op :=
| OpAnchorAudit (a : anchor_args)
| OpProofCount.

(** One operation: the table afterwards and the value returned, if any.
    [proof_count] takes an immutable reference, so the table it leaves
    is the table it was given. *)
Definition run_op (table : AuditTable) (op : ledger_op)
  : AuditTable * option u64 :=
  match op with
  | OpAnchorAudit a =>
      (anchor_audit table (arg_hash a) (arg_score a) (arg_time a), None)
  | OpProofCount => (table, Some (proof_count table))
  end.

Definition run_ops (table : AuditTable) (ops : list ledger_op) : AuditTable :=
  foldl (fun t op => fst (run_op t op)) table ops.

End Oracle.

(* ===================================================================== *)
(** * Part II. The uploader script                                        *)
(* ===================================================================== *)

(** ** JavaScript strings

    A JavaScript string is a sequence of UTF-16 code units; the regular
    expressions of the script carry no [u] flag and [JSON.parse] reads code
    units, so code units are what the model keeps. *)
Definition jsstring : Type := list N.

(** The code units of an ASCII literal. *)
Definition js (s : string) : jsstring :=
  map N_of_ascii (list_ascii_of_string s).

(** Literals of tool output: as [js], with an apostrophe standing for the
    quotation mark U+0022 and a circumflex for ESC, U+001B. *)
Definition lit (s : string) : jsstring :=
  map (fun c => if c =? 39 then 34 else if c =? 94 then 27 else c) (js s).

Definition is_digit (c : N) : bool := (48 <=? c) && (c <=? 57).

(** The decimal digits of a natural number, most significant first. *)
Fixpoint uint_units (d : Decimal.uint) : jsstring :=
  match d with
  | Decimal.Nil => []
  | Decimal.D0 d => 48 :: uint_units d
  | Decimal.D1 d => 49 :: uint_units d
  | Decimal.D2 d => 50 :: uint_units d
  | Decimal.D3 d => 51 :: uint_units d
  | Decimal.D4 d => 52 :: uint_units d
  | Decimal.D5 d => 53 :: uint_units d
  | Decimal.D6 d => 54 :: uint_units d
  | Decimal.D7 d => 55 :: uint_units d
  | Decimal.D8 d => 56 :: uint_units d
  | Decimal.D9 d => 57 :: uint_units d
  end.

Definition decimal_of_N (n : N) : jsstring := uint_units (N.to_uint n).

(** The number a run of decimal digits denotes. *)
Definition N_of_decimal (ds : jsstring) : N :=
  foldl (fun acc c => 10 * acc + (c - 48)) 0 ds.

(** ** Numbers

    [JSON.parse] turns a number literal into the nearest IEEE-754 double
    (ties to even); the script can observe such a value through
    [ToBoolean], through [ToString] in a template literal and through
    [JSON.stringify].  Doubles are kept exactly, as sign, significand and
    binary exponent. *)
Module Number.

Inductive double :=
| Zero (neg : bool)
| Finite (neg : bool) (m : N) (e : Z)    (* m * 2^e, 0 < m < 2^53 *)
| Infinity (neg : bool).

(** floor (log2 (num / den)) for positive [num] and [den]. *)
Definition ilog2 (num den : N) : Z :=
  let l := (Z.of_N (N.log2 num) - Z.of_N (N.log2 den))%Z in
  let ge := if (0 <=? l)%Z
            then den * 2 ^ Z.to_N l <=? num
            else den <=? num * 2 ^ Z.to_N (- l) in
  if ge then l else (l - 1)%Z.

(** The double nearest to [num / den], ties to even. *)
Definition round_ratio (neg : bool) (num den : N) : double :=
  if num =? 0 then Zero neg else
  let e := Z.max (ilog2 num den - 52) (-1074) in
  let '(n, d) := if (0 <=? e)%Z then (num, den * 2 ^ Z.to_N e)
                 else (num * 2 ^ Z.to_N (- e), den) in
  let q := n / d in
  let r := n mod d in
  let up := match 2 * r ?= d with
            | Lt => false
            | Gt => true
            | Eq => N.odd q
            end in
  let m := if up then q + 1 else q in
  let '(m, e) := if m =? 2 ^ 53 then (2 ^ 52, (e + 1)%Z) else (m, e) in
  if m =? 0 then Zero neg
  else if (971 <? e)%Z then Infinity neg
  else Finite neg m e.

(** The double nearest to [mant * 10^e10]. *)
Definition round_decimal (neg : bool) (mant : N) (e10 : Z) : double :=
  if (0 <=? e10)%Z then round_ratio neg (mant * 10 ^ Z.to_N e10) 1
  else round_ratio neg mant (10 ^ Z.to_N (- e10)).

Definition double_eqb (a b : double) : bool :=
  match a, b with
  | Zero s, Zero t => Bool.eqb s t
  | Infinity s, Infinity t => Bool.eqb s t
  | Finite s m e, Finite t n f => Bool.eqb s t && (m =? n) && (e =? f)%Z
  | _, _ => false
  end.

(** [ToBoolean] of a number: false exactly on +0 and -0 (no literal
    denotes NaN). *)
Definition to_boolean (d : double) : bool :=
  match d with Zero _ => false | _ => true end.

(** *** [Number::toString], radix 10

    For a positive finite value the standard takes the shortest digit
    string [s] (of [k] digits) and the exponent [n] with
    [s * 10^(n-k)] rounding back to the value, the closest such [s] when
    there are several. *)

Definition digits10 (n : N) : Z := Z.of_nat (length (decimal_of_N n)).

(** floor (log10 (num / den)) for positive [num] and [den]. *)
Definition ilog10 (num den : N) : Z :=
  let l := (digits10 num - digits10 den)%Z in
  let ge := if (0 <=? l)%Z
            then den * 10 ^ Z.to_N l <=? num
            else den <=? num * 10 ^ Z.to_N (- l) in
  if ge then l else (l - 1)%Z.

(** [num / den] divided by [10^x], as a fraction. *)
Definition scale10 (num den : N) (x : Z) : N * N :=
  if (0 <=? x)%Z then (num, den * 10 ^ Z.to_N x)
  else (num * 10 ^ Z.to_N (- x), den).

(** The candidate with [k] digits, if one rounds back to [m * 2^e]:
    the integer below and the integer above [v / 10^(n0-k)], the closer
    one first. *)
Definition candidate (m : N) (e : Z) (num den : N) (n0 : Z) (k : Z)
  : option (N * Z) :=
  let x := (n0 - k)%Z in
  let '(a, b) := scale10 num den x in
  let lo := a / b in
  let r := a mod b in
  let back s := double_eqb (round_decimal false s x) (Finite false m e) in
  let hi_first := match 2 * r ?= b with
                  | Gt => true
                  | Lt => false
                  | Eq => N.odd lo
                  end in
  if r =? 0 then (if back lo then Some (lo, x) else None)
  else if hi_first
  then (if back (lo + 1) then Some (lo + 1, x)
        else if back lo then Some (lo, x) else None)
  else (if back lo then Some (lo, x)
        else if back (lo + 1) then Some (lo + 1, x) else None).

Fixpoint shortest (fuel : nat) (m : N) (e : Z) (num den : N) (n0 k : Z)
  : N * Z :=
  match fuel with
  | O => (num / den, 0%Z)
  | S fuel =>
      match candidate m e num den n0 k with
      | Some r => r
      | None => shortest fuel m e num den n0 (k + 1)
      end
  end.

(** Drop the zeros at the end of [s], raising the exponent. *)
Fixpoint strip_zeros (fuel : nat) (s : N) (x : Z) : N * Z :=
  match fuel with
  | O => (s, x)
  | S fuel => if (s mod 10 =? 0) && negb (s =? 0)
              then strip_zeros fuel (s / 10) (x + 1)
              else (s, x)
  end.

Definition exponent_part (n : Z) : jsstring :=
  101 :: (if (0 <=? n - 1)%Z then 43 else 45)
      :: decimal_of_N (Z.to_N (Z.abs (n - 1))).

(** The layout of the digits [ds] (there are [k] of them) with the
    decimal point after the [n]-th. *)
Definition layout (ds : jsstring) (n : Z) : jsstring :=
  let k := Z.of_nat (length ds) in
  if (k <=? n)%Z && (n <=? 21)%Z
  then ds ++ repeat 48 (Z.to_nat (n - k))
  else if (0 <? n)%Z && (n <=? 21)%Z
  then take (Z.to_nat n) ds ++ 46 :: drop (Z.to_nat n) ds
  else if (-6 <? n)%Z && (n <=? 0)%Z
  then 48 :: 46 :: repeat 48 (Z.to_nat (- n)) ++ ds
  else match ds with
       | [d] => d :: exponent_part n
       | d :: ds' => d :: 46 :: ds' ++ exponent_part n
       | [] => []
       end.

Definition to_string (d : double) : jsstring :=
  match d with
  | Zero _ => js "0"
  | Infinity neg => (if neg then [45] else []) ++ js "Infinity"
  | Finite neg m e =>
      let '(num, den) := if (0 <=? e)%Z then (m * 2 ^ Z.to_N e, 1)
                         else (m, 2 ^ Z.to_N (- e)) in
      let n0 := (ilog10 num den + 1)%Z in
      let '(s, x) := shortest 17 m e num den n0 1 in
      let '(s, x) := strip_zeros 20 s x in
      let ds := decimal_of_N s in
      (if neg then [45] else [])
        ++ layout ds (Z.of_nat (length ds) + x)
  end.

Definition is_finite (d : double) : bool :=
  match d with Infinity _ => false | _ => true end.

End Number.

(** ** Regular expressions

    The two regular expressions of [extractJson] are sequences of items,
    each a character class or a greedy star of a character class.  The
    matcher is the backtracking matcher of the language: a star first tries
    to take one more code unit and gives it back when the rest of the
    pattern fails. *)
Module Regex.

Inductive item :=
| One (cls : N -> bool)
| Star (cls : N -> bool).

Definition regex := list item.

(** Match [r] at the start of [s]: the matched prefix and what follows. *)
Fixpoint match_here (r : regex) : jsstring -> option (jsstring * jsstring) :=
  match r with
  | [] => fun s => Some ([], s)
  | One cls :: r' => fun s =>
      match s with
      | c :: s' =>
          if cls c
          then match match_here r' s' with
               | Some (m, rest) => Some (c :: m, rest)
               | None => None
               end
          else None
      | [] => None
      end
  | Star cls :: r' =>
      fix star (s : jsstring) : option (jsstring * jsstring) :=
        match s with
        | c :: s' =>
            if cls c
            then match star s' with
                 | Some (m, rest) => Some (c :: m, rest)
                 | None => match_here r' s
                 end
            else match_here r' s
        | [] => match_here r' []
        end
  end.

(** [String.prototype.match] with a regular expression without the [g]
    flag: the match at the leftmost position that has one, with the text
    before it and the text after it. *)
Fixpoint search (r : regex) (s : jsstring)
  : option (jsstring * jsstring * jsstring) :=
  match match_here r s with
  | Some (m, rest) => Some ([], m, rest)
  | None =>
      match s with
      | [] => None
      | c :: s' =>
          match search r s' with
          | Some (pre, m, rest) => Some (c :: pre, m, rest)
          | None => None
          end
      end
  end.

(** [String.prototype.replace] with a [g] regular expression and the
    empty replacement: matches are taken left to right, each search
    resuming where the previous match ended.  [skip] counts the code
    units of the current match still to be dropped. *)
Fixpoint remove_from (r : regex) (skip : nat) (s : jsstring) : jsstring :=
  match s with
  | [] => []
  | c :: s' =>
      match skip with
      | S k => remove_from r k s'
      | O =>
          match match_here r s with
          | Some (_ :: m, _) => remove_from r (length m) s'
          | _ => c :: remove_from r O s'
          end
      end
  end.

Definition remove_all (r : regex) (s : jsstring) : jsstring :=
  remove_from r O s.

Definition chr (c : N) : N -> bool := N.eqb c.

(** [\s]: WhiteSpace and LineTerminator code points. *)
Definition space (c : N) : bool :=
  (c =? 9) || (c =? 10) || (c =? 11) || (c =? 12) || (c =? 13)
  || (c =? 32) || (c =? 160) || (c =? 5760)
  || ((8192 <=? c) && (c <=? 8202))
  || (c =? 8232) || (c =? 8233) || (c =? 8239) || (c =? 8287)
  || (c =? 12288) || (c =? 65279).

(** [[\s\S]]: every code unit. *)
Definition any (c : N) : bool := true.

(** [[0-9;]]. *)
Definition sgr_param (c : N) : bool := is_digit c || (c =? 59).

(** The language of a pattern, independently of the matcher: the strings
    it can match in full. *)
Fixpoint matches (r : regex) (m : jsstring) : Prop :=
  match r with
  | [] => m = []
  | One cls :: r' =>
      exists c m', m = c :: m' /\ cls c = true /\ matches r' m'
  | Star cls :: r' =>
      exists w m', m = w ++ m' /\ Forall (fun c => cls c = true) w
                   /\ matches r' m'
  end.

(** [s] has a substring in the language of [r]. *)
Definition occurs (r : regex) (s : jsstring) : Prop :=
  exists pre m post, s = pre ++ m ++ post /\ matches r m.

End Regex.

(** [/\x1b\[[0-9;]*m/]. *)
Definition color_code : Regex.regex :=
  [Regex.One (Regex.chr 27); Regex.One (Regex.chr 91);
   Regex.Star Regex.sgr_param; Regex.One (Regex.chr 109)].

(** The two ends of the second pattern: an opening bracket, white space
    and an opening brace; a closing brace, white space and a closing
    bracket. *)
Definition opener : Regex.regex :=
  [Regex.One (Regex.chr 91); Regex.Star Regex.space; Regex.One (Regex.chr 123)].

Definition closer : Regex.regex :=
  [Regex.One (Regex.chr 125); Regex.Star Regex.space; Regex.One (Regex.chr 93)].

(** [/\[\s*{[\s\S]*}\s*\]/]. *)
Definition json_block : Regex.regex :=
  opener ++ Regex.Star Regex.any :: closer.

(** ** JSON values *)

#[warnings="-register-all"]
Inductive json :=
| JNull
| JBool (b : bool)
| JNum (d : Number.double)
| JStr (s : jsstring)
| JArr (elems : list json)
| JObj (props : list (jsstring * json)).

(** A JavaScript value of the script: [None] is [undefined]. *)
Definition jsval : Type := option json.

Definition str_eqb (a b : jsstring) : bool :=
  bool_decide (a = b).

(** The own properties of an object, in creation order, each key once. *)
Fixpoint obj_get (props : list (jsstring * json)) (k : jsstring) : jsval :=
  match props with
  | [] => None
  | (k', v) :: ps => if str_eqb k' k then Some v else obj_get ps k
  end.

(** [CreateDataProperty]: a repeated key keeps its place and takes the new
    value. *)
Fixpoint obj_set (props : list (jsstring * json)) (k : jsstring) (v : json)
  : list (jsstring * json) :=
  match props with
  | [] => [(k, v)]
  | (k', v') :: ps =>
      if str_eqb k' k then (k', v) :: ps else (k', v') :: obj_set ps k v
  end.

(** ** [JSON.parse] *)
Module JSON.

Inductive parsed (A : Type) :=
| Parsed (a : A) (rest : jsstring)
| Malformed
| Exhausted.
Arguments Parsed {A} a rest.
Arguments Malformed {A}.
Arguments Exhausted {A}.

(** JSON white space: tab, line feed, carriage return, space. *)
Definition ws (c : N) : bool :=
  (c =? 9) || (c =? 10) || (c =? 13) || (c =? 32).

Fixpoint skip_ws (s : jsstring) : jsstring :=
  match s with
  | c :: s' => if ws c then skip_ws s' else s
  | [] => []
  end.

Fixpoint span (p : N -> bool) (s : jsstring) : jsstring * jsstring :=
  match s with
  | c :: s' => if p c then let '(a, b) := span p s' in (c :: a, b)
               else ([], s)
  | [] => ([], [])
  end.

Fixpoint strip_prefix (p s : jsstring) : option jsstring :=
  match p, s with
  | [], _ => Some s
  | a :: p', b :: s' => if a =? b then strip_prefix p' s' else None
  | _ :: _, [] => None
  end.

Definition hex_value (c : N) : option N :=
  if is_digit c then Some (c - 48)
  else if (97 <=? c) && (c <=? 102) then Some (c - 87)
  else if (65 <=? c) && (c <=? 70) then Some (c - 55)
  else None.

(** The code unit of a one-letter escape. *)
Definition unescape (c : N) : option N :=
  if c =? 34 then Some 34          (* quotation mark *)
  else if c =? 92 then Some 92     (* reverse solidus *)
  else if c =? 47 then Some 47     (* solidus *)
  else if c =? 98 then Some 8      (* b: backspace *)
  else if c =? 102 then Some 12    (* f: form feed *)
  else if c =? 110 then Some 10    (* n: line feed *)
  else if c =? 114 then Some 13    (* r: carriage return *)
  else if c =? 116 then Some 9     (* t: tab *)
  else None.

(** The characters of a string literal after its opening quote, up to
    and including the closing quote. *)
Fixpoint parse_chars (s : jsstring) : option (jsstring * jsstring) :=
  match s with
  | [] => None
  | c :: s1 =>
      if c =? 34 then Some ([], s1)
      else if c =? 92 then
        match s1 with
        | [] => None
        | e :: s2 =>
            if e =? 117 then
              match s2 with
              | h1 :: h2 :: h3 :: h4 :: s3 =>
                  match hex_value h1, hex_value h2, hex_value h3, hex_value h4 with
                  | Some a, Some b, Some c', Some d =>
                      match parse_chars s3 with
                      | Some (str, rest) =>
                          Some (4096 * a + 256 * b + 16 * c' + d :: str, rest)
                      | None => None
                      end
                  | _, _, _, _ => None
                  end
              | _ => None
              end
            else
              match unescape e with
              | Some u =>
                  match parse_chars s2 with
                  | Some (str, rest) => Some (u :: str, rest)
                  | None => None
                  end
              | None => None
              end
        end
      else if c <? 32 then None
      else match parse_chars s1 with
           | Some (str, rest) => Some (c :: str, rest)
           | None => None
           end
  end.

(** The text after the code unit [c], when the text starts with it. *)
Definition expect (c : N) (s : jsstring) : option jsstring :=
  match s with
  | x :: rest => if x =? c then Some rest else None
  | [] => None
  end.

(** A number literal: an optional minus sign; a zero, or a non-zero digit
    and further digits; optionally a point and one digit or more;
    optionally [e] or [E], an optional sign and one digit or more. *)
Definition parse_number (s : jsstring) : option (Number.double * jsstring) :=
  let '(neg, s) := match expect 45 s with
                   | Some r => (true, r)
                   | None => (false, s)
                   end in
  match s with
  | [] => None
  | c :: r =>
      if negb (is_digit c) then None else
      let '(int, s1) := if c =? 48 then ([48], r) else span is_digit s in
      let frac := match expect 46 s1 with
                  | Some r1 =>
                      let '(ds, r2) := span is_digit r1 in
                      match ds with [] => None | _ => Some (ds, r2) end
                  | None => Some ([], s1)
                  end in
      match frac with
      | None => None
      | Some (fr, s2) =>
          let expo := match s2 with
                      | e :: r2 =>
                          if (e =? 101) || (e =? 69) then
                            let '(eneg, r3) :=
                              match expect 43 r2 with
                              | Some r => (false, r)
                              | None => match expect 45 r2 with
                                        | Some r => (true, r)
                                        | None => (false, r2)
                                        end
                              end in
                            let '(ds, r4) := span is_digit r3 in
                            match ds with
                            | [] => None
                            | _ => let x := Z.of_N (N_of_decimal ds) in
                                   Some (if eneg then (- x)%Z else x, r4)
                            end
                          else Some (0%Z, s2)
                      | [] => Some (0%Z, s2)
                      end in
          match expo with
          | None => None
          | Some (x, s3) =>
              Some (Number.round_decimal neg (N_of_decimal (int ++ fr))
                      (x - Z.of_nat (length fr)), s3)
          end
      end
  end.

Definition keyword (word : jsstring) (v : json) (s : jsstring) : parsed json :=
  match strip_prefix word s with
  | Some rest => Parsed v rest
  | None => Malformed
  end.

(** Values, the elements of an array after its first bracket and the
    members of an object after its first brace.  Every call that recurses
    has consumed input; [fuel] bounds the depth of the recursion. *)
Fixpoint parse_value (fuel : nat) (s : jsstring) : parsed json :=
  match fuel with
  | O => Exhausted
  | S fuel =>
      match skip_ws s with
      | [] => Malformed
      | c :: r =>
          if c =? 123 then
            match expect 125 (skip_ws r) with
            | Some r' => Parsed (JObj []) r'
            | None => parse_members fuel r []
            end
          else if c =? 91 then
            match expect 93 (skip_ws r) with
            | Some r' => Parsed (JArr []) r'
            | None => parse_elements fuel r []
            end
          else if c =? 34 then
            match parse_chars r with
            | Some (str, rest) => Parsed (JStr str) rest
            | None => Malformed
            end
          else if c =? 116 then keyword (js "true") (JBool true) (c :: r)
          else if c =? 102 then keyword (js "false") (JBool false) (c :: r)
          else if c =? 110 then keyword (js "null") JNull (c :: r)
          else match parse_number (c :: r) with
               | Some (d, rest) => Parsed (JNum d) rest
               | None => Malformed
               end
      end
  end
with parse_elements (fuel : nat) (s : jsstring) (acc : list json)
  : parsed json :=
  match fuel with
  | O => Exhausted
  | S fuel =>
      match parse_value fuel s with
      | Parsed v r =>
          match expect 44 (skip_ws r) with
          | Some r' => parse_elements fuel r' (acc ++ [v])
          | None =>
              match expect 93 (skip_ws r) with
              | Some r' => Parsed (JArr (acc ++ [v])) r'
              | None => Malformed
              end
          end
      | Malformed => Malformed
      | Exhausted => Exhausted
      end
  end
with parse_members (fuel : nat) (s : jsstring) (acc : list (jsstring * json))
  : parsed json :=
  match fuel with
  | O => Exhausted
  | S fuel =>
      match expect 34 (skip_ws s) with
      | Some r =>
          match parse_chars r with
          | Some (k, r1) =>
              match expect 58 (skip_ws r1) with
              | Some r2 =>
                  match parse_value fuel r2 with
                  | Parsed v r3 =>
                      match expect 44 (skip_ws r3) with
                      | Some r4 => parse_members fuel r4 (obj_set acc k v)
                      | None =>
                          match expect 125 (skip_ws r3) with
                          | Some r4 => Parsed (JObj (obj_set acc k v)) r4
                          | None => Malformed
                          end
                      end
                  | Malformed => Malformed
                  | Exhausted => Exhausted
                  end
              | None => Malformed
              end
          | None => Malformed
          end
      | None => Malformed
      end
  end.

(** The whole text is one value between white space.  [None] is the
    [SyntaxError]: with this much fuel [parse_value] never answers
    [Exhausted] (lemma [parse_never_exhausted]). *)
Definition parse (text : jsstring) : option json :=
  match parse_value (2 * length text + 1) text with
  | Parsed v rest => match skip_ws rest with [] => Some v | _ => None end
  | _ => None
  end.

End JSON.

(** ** Conversions of values *)

(** [ToBoolean]. *)
Definition to_boolean (v : jsval) : bool :=
  match v with
  | None => false
  | Some JNull => false
  | Some (JBool b) => b
  | Some (JNum d) => Number.to_boolean d
  | Some (JStr s) => match s with [] => false | _ => true end
  | Some (JArr _) => true
  | Some (JObj _) => true
  end.

(** The string [ToString] gives for a value that came out of [JSON.parse],
    when it gives one (see [convertible] below): an array is its elements
    joined by commas, [null] elements left empty; an object is
    [[object Object]]. *)
Fixpoint json_to_string (v : json) : jsstring :=
  match v with
  | JNull => js "null"
  | JBool true => js "true"
  | JBool false => js "false"
  | JNum d => Number.to_string d
  | JStr s => s
  | JArr elems =>
      (fix join (l : list json) : jsstring :=
         match l with
         | [] => []
         | x :: l' =>
             (match x with JNull => [] | _ => json_to_string x end)
               ++ match l' with [] => [] | _ => 44 :: join l' end
         end) elems
  | JObj _ => js "[object Object]"
  end.

Definition to_string (v : jsval) : jsstring :=
  match v with
  | None => js "undefined"
  | Some j => json_to_string j
  end.

(** Whether [ToString] gives a string at all.  An object is converted by
    the first callable among its [toString] and its [valueOf] that gives a
    primitive value.  A parsed object with a [toString] key of its own
    hides the inherited method behind a value that cannot be called, and
    [valueOf], its own or the inherited one, gives no primitive value: the
    conversion throws.  An array is converted by [join], which converts
    the elements one by one ([null] elements are skipped). *)
Fixpoint convertible (v : json) : bool :=
  match v with
  | JObj props =>
      match obj_get props (js "toString") with
      | Some _ => false
      | None => true
      end
  | JArr elems =>
      (fix every (l : list json) : bool :=
         match l with
         | [] => true
         | x :: l' => convertible x && every l'
         end) elems
  | _ => true
  end.

(** ** [JSON.stringify] *)

Definition hex_digit (n : N) : N := if n <? 10 then 48 + n else 87 + n.

Definition unicode_escape (c : N) : jsstring :=
  [92; 117; hex_digit (c / 4096); hex_digit ((c / 256) mod 16);
   hex_digit ((c / 16) mod 16); hex_digit (c mod 16)].

Definition lead_surrogate (c : N) : bool := (55296 <=? c) && (c <=? 56319).
Definition trail_surrogate (c : N) : bool := (56320 <=? c) && (c <=? 57343).

(** The characters of [QuoteJSONString] between the two quotation marks. *)
Fixpoint quote_units (s : jsstring) : jsstring :=
  match s with
  | [] => []
  | c :: s' =>
      if c =? 8 then 92 :: 98 :: quote_units s'
      else if c =? 9 then 92 :: 116 :: quote_units s'
      else if c =? 10 then 92 :: 110 :: quote_units s'
      else if c =? 12 then 92 :: 102 :: quote_units s'
      else if c =? 13 then 92 :: 114 :: quote_units s'
      else if c =? 34 then 92 :: 34 :: quote_units s'
      else if c =? 92 then 92 :: 92 :: quote_units s'
      else if c <? 32 then unicode_escape c ++ quote_units s'
      else if lead_surrogate c then
        match s' with
        | d :: s'' =>
            if trail_surrogate d then c :: d :: quote_units s''
            else unicode_escape c ++ quote_units s'
        | [] => unicode_escape c
        end
      else if trail_surrogate c then unicode_escape c ++ quote_units s'
      else c :: quote_units s'
  end.

Definition quote (s : jsstring) : jsstring := 34 :: quote_units s ++ [34].

Fixpoint join_comma (parts : list jsstring) : jsstring :=
  match parts with
  | [] => []
  | [x] => x
  | x :: rest => x ++ 44 :: join_comma rest
  end.

(** An array index: the canonical decimal form of an integer below
    2^32 - 1. *)
Definition array_index (k : jsstring) : option N :=
  let n := N_of_decimal k in
  if forallb is_digit k && str_eqb (decimal_of_N n) k && (n <? 4294967295)
  then Some n else None.

Fixpoint insert_index {A} (i : N) (x : A) (l : list (N * A)) : list (N * A) :=
  match l with
  | [] => [(i, x)]
  | (j, y) :: l' => if i <? j then (i, x) :: l else (j, y) :: insert_index i x l'
  end.

(** [OrdinaryOwnPropertyKeys]: array indices in ascending order, then the
    other keys in creation order. *)
Definition own_property_order {A} (props : list (jsstring * A)) : list A :=
  let indexed :=
    foldr (fun '(k, x) acc =>
             match array_index k with
             | Some i => insert_index i x acc
             | None => acc
             end) [] props in
  let named :=
    omap (fun '(k, x) =>
            match array_index k with Some _ => None | None => Some x end)
         props in
  map snd indexed ++ named.

(** [JSON.stringify] of a value that came out of [JSON.parse], without
    indentation. *)
Fixpoint JSON_stringify (v : json) : jsstring :=
  match v with
  | JNull => js "null"
  | JBool true => js "true"
  | JBool false => js "false"
  | JNum d => if Number.is_finite d then Number.to_string d else js "null"
  | JStr s => quote s
  | JArr elems =>
      91 :: join_comma
              ((fix each (l : list json) : list jsstring :=
                  match l with
                  | [] => []
                  | x :: l' => JSON_stringify x :: each l'
                  end) elems)
         ++ [93]
  | JObj props =>
      123 :: join_comma
               (own_property_order
                  ((fix each (l : list (jsstring * json))
                      : list (jsstring * jsstring) :=
                      match l with
                      | [] => []
                      | (k, x) :: l' =>
                          (k, quote k ++ 58 :: JSON_stringify x) :: each l'
                      end) props))
          ++ [125]
  end.

(** [JSON.stringify] of an object literal whose property names are not
    array indices: a property whose value is [undefined] is left out. *)
Definition stringify_literal (fields : list (jsstring * jsval)) : jsstring :=
  123 :: join_comma
           (omap (fun '(k, v) =>
                    match v with
                    | Some j => Some (quote k ++ 58 :: JSON_stringify j)
                    | None => None
                    end) fields)
      ++ [125].

(** ** Exceptions *)

Inductive error :=
| Error (message : jsstring)   (* [new Error(message)] *)
| SyntaxError                  (* thrown by [JSON.parse] *)
| TypeError                    (* a property read on [undefined] or [null],
                                  an object that cannot be made a string *)
| ChildProcessError.           (* thrown by [execSync] *)

Inductive outcome (A : Type) :=
| Return (a : A)
| Throw (e : error).
Arguments Return {A} a.
Arguments Throw {A} e.

#[global] Instance outcome_bind : MBind outcome :=
  fun A B f m => match m with Return a => f a | Throw e => Throw e end.

(** [v.key] for the property names the script reads ([blobStoreResult],
    [newlyCreated], [blobObject], [blobId], [id]): none of them is a
    property of an array, of a string, of a number or of a boolean, nor an
    inherited property of a plain object. *)
Definition get (v : jsval) (key : jsstring) : outcome jsval :=
  match v with
  | None => Throw TypeError
  | Some JNull => Throw TypeError
  | Some (JObj props) => Return (obj_get props key)
  | Some _ => Return None
  end.

(** [v[0]]. *)
Definition first (v : json) : outcome jsval :=
  match v with
  | JNull => Throw TypeError
  | JArr elems => Return (head elems)
  | JObj props => Return (obj_get props (js "0"))
  | JStr (c :: _) => Return (Some (JStr [c]))
  | _ => Return None
  end.

(** [ToString], as a template literal applies it to a substitution.  (The
    depth of nesting at which an engine runs out of stack is no part of
    the model.) *)
Definition ToString (v : jsval) : outcome jsstring :=
  match v with
  | None => Return (to_string None)
  | Some j => if convertible j then Return (to_string (Some j)) else Throw TypeError
  end.

(** ** The script *)

(** The message of the first [throw] of the script. *)
Definition no_json_message (output : jsstring) : jsstring :=
  js "No JSON returned by walrus" ++ 10 :: output.

(** The message of the second [throw]: [JSON.stringify(undefined)] is
    [undefined], which [+] turns into the word. *)
Definition unsupported_message (result : jsval) : jsstring :=
  js "Unsupported Walrus JSON format: "
    ++ match result with
       | Some r => JSON_stringify r
       | None => js "undefined"
       end.

(** [function extractJson(output)]. *)
Definition extractJson (output : jsstring) : outcome json :=
  (* remove color codes *)
  let output := Regex.remove_all color_code output in
  (* match JSON block *)
  match Regex.search json_block output with
  | None => Throw (Error (no_json_message output))
  | Some (_, block, _) =>
      match JSON.parse block with
      | Some v => Return v
      | None => Throw SyntaxError
      end
  end.

(** The object [parseWalrus] returns. *)
Record receipt := mkReceipt {
  blobId : jsval;
  objectId : jsval;
  walrusURL : jsstring;
  objectURL : jsstring
}.

(** The explorer base of the two URL templates. *)
Definition explorer_base : jsstring := js "https://walruscan.com/testnet".

(** [function parseWalrus(jsonArray)]. *)
Definition parseWalrus (jsonArray : json) : outcome receipt :=
  entry ← first jsonArray;
  result ← get entry (js "blobStoreResult");
  newlyCreated ← get result (js "newlyCreated");
  if to_boolean newlyCreated then
    x ← get newlyCreated (js "blobObject");
    x_blobId ← get x (js "blobId");
    x_id ← get x (js "id");
    blob_text ← ToString x_blobId;
    object_text ← ToString x_id;
    Return {| blobId := x_blobId;
              objectId := x_id;
              walrusURL := explorer_base ++ js "/blob/" ++ blob_text;
              objectURL := explorer_base ++ js "/object/" ++ object_text |}
  else Throw (Error (unsupported_message result)).

(** What the body of [upload] computes from the output of the tool: the
    specification's [store], seen from the captured text on. *)
Definition store (raw : jsstring) : outcome receipt :=
  jsonArr ← extractJson raw;
  parseWalrus jsonArr.

(** One run of a command by [execSync]: what the command wrote to its
    error stream, and its standard output, [None] when [execSync] throws
    (the command cannot be run, exits with a non-zero status, is killed,
    or writes more than the buffer of [execSync] holds). *)
Record child := mkChild {
  child_stdout : option jsstring;
  child_stderr : jsstring
}.

(** The operating system, as far as the script consults it:
    [path.resolve] (which depends on the working directory) and the run of
    a command. *)
Record system := mkSystem {
  path_resolve : jsstring -> jsstring;
  execSync : jsstring -> child
}.

(** What the script does to the outside, in order. *)
Inductive event :=
| Spawn (cmd : jsstring)                    (* a subprocess is started *)
| Stdout (line : jsstring)                  (* [console.log] *)
| Stderr (label : jsstring) (err : error)   (* [console.error] *)
| ChildStderr (text : jsstring)             (* [execSync] hands on what the
                                               command wrote to its error
                                               stream *)
| Exit (status : N).                        (* [process.exit] *)

(** [upload] calls [execSync] without a [stdio] option: whatever the
    command wrote to its error stream is written to the error stream of
    the script when the command has ended, be it with success or not.
    Nothing is written for an empty text. *)
Definition handed_on (run : child) : list event :=
  match child_stderr run with
  | [] => []
  | text => [ChildStderr text]
  end.

(** The object literal [final] of [upload], property by property. *)
Definition final_fields (parsed : receipt) : list (jsstring * jsval) :=
  [(js "blobId", blobId parsed);
   (js "objectId", objectId parsed);
   (js "walrusURL", Some (JStr (walrusURL parsed)));
   (js "objectURL", Some (JStr (objectURL parsed)))].

(** [function upload(filePath)]. *)
Definition upload (sys : system) (filePath : jsstring) : list event :=
  let abs := path_resolve sys filePath in
  let cmd := js "walrus store " ++ abs ++ js " --epochs 2 --json" in
  Stdout (js "Uploading to Walrus Testnet: " ++ abs)
  :: Spawn cmd
  :: handed_on (execSync sys cmd)
  ++ match child_stdout (execSync sys cmd) with
     | None => [Stderr (js "Upload failed!") ChildProcessError; Exit 1]
     | Some raw =>
         match store raw with
         | Return parsed =>
             let final := final_fields parsed in
             [Stdout (stringify_literal final)]
         | Throw err => [Stderr (js "Upload failed!") err; Exit 1]
         end
     end.

(** The last statement of the script: [if (process.argv[2])
    upload(process.argv[2])].  [argv] holds the interpreter, the script and
    the arguments of the command line. *)
Definition main (sys : system) (argv : list jsstring) : list event :=
  match argv !! 2%nat with
  | Some arg => if to_boolean (Some (JStr arg)) then upload sys arg else []
  | None => []
  end.

(** The observations the claims speak of. *)
Definition stdout_of (trace : list event) : list jsstring :=
  omap (fun e => match e with Stdout l => Some l | _ => None end) trace.

(** Everything that reaches the error stream of the script: the
    diagnostics of [console.error] and what [execSync] hands on. *)
Definition stderr_of (trace : list event) : list event :=
  omap (fun e => match e with
                 | Stderr _ _ | ChildStderr _ => Some e
                 | _ => None
                 end) trace.

Definition spawned (trace : list event) : list jsstring :=
  omap (fun e => match e with Spawn c => Some c | _ => None end) trace.

(** The exit status of the process: the argument of the first
    [process.exit], 0 when the script runs to its end. *)
Definition exit_status (trace : list event) : N :=
  default 0 (head (omap (fun e => match e with Exit n => Some n | _ => None end) trace)).

(** ** The sample *)

(** Output of the tool for a newly created blob, as [walrus store --json]
    prints it, coloured log lines around the array. *)
Definition sample_output : jsstring :=
  lit "^[2m2025-01-01T00:00:00Z^[0m ^[32m INFO^[0m storing 1 file
[
  {
    'blobStoreResult': {
      'newlyCreated': {
        'blobObject': {
          'id': '0xDEAD',
          'registeredEpoch': 34,
          'blobId': 'b64:ABC123',
          'size': 12,
          'encodingType': 'RS2',
          'certifiedEpoch': null,
          'storage': { 'id': '0xBEEF', 'startEpoch': 34, 'endEpoch': 36, 'storageSize': 66034000 },
          'deletable': false
        },
        'resourceOperation': { 'registerFromScratch': { 'encodedLength': 66034000, 'epochsAhead': 2 } },
        'cost': 132300
      }
    },
    'path': '/data/bundle.json'
  }
]
".

(** ** Vocabulary of the claims *)

(** A message carries a text when the text occurs in it. *)
Definition carries (detail message : jsstring) : Prop :=
  exists before after, message = before ++ detail ++ after.

Definition nonempty_string (v : jsval) : Prop :=
  exists s, v = Some (JStr s) /\ s <> [].

(** A receipt with its four fields holding non-empty strings. *)
Definition populated (r : receipt) : Prop :=
  nonempty_string (blobId r) /\ nonempty_string (objectId r)
  /\ walrusURL r <> [] /\ objectURL r <> [].

(** The first element of a parsed array describes a newly created blob
    whose blob object holds [b] under [blobId] and [o] under [id]. *)
Definition newly_created (arr : json) (b o : jsval) : Prop :=
  exists entry rest result created x,
    arr = JArr (JObj entry :: rest)
    /\ obj_get entry (js "blobStoreResult") = Some (JObj result)
    /\ obj_get result (js "newlyCreated") = Some (JObj created)
    /\ obj_get created (js "blobObject") = Some (JObj x)
    /\ obj_get x (js "blobId") = b
    /\ obj_get x (js "id") = o.

(** A value that is no object and no array: a string, a number, a
    boolean, [null], or nothing at all. *)
Definition primitive (v : jsval) : Prop :=
  match v with
  | Some (JArr _) | Some (JObj _) => False
  | _ => True
  end.

(** A colour code: ESC, an opening bracket, digits and semicolons, [m]. *)
Definition is_color_code (code : jsstring) : Prop :=
  exists params,
    code = 27 :: 91 :: params ++ [109]
    /\ Forall (fun c => Regex.sgr_param c = true) params.

(** A text without any ESC. *)
Definition plain (s : jsstring) : Prop := Forall (fun c => c <> 27) s.

(** An opening bracket, white space, an opening brace, anything, a closing
    brace, white space, a closing bracket. *)
Definition is_block (block : jsstring) : Prop :=
  exists ws1 mid ws2,
    block = 91 :: ws1 ++ 123 :: mid ++ 125 :: ws2 ++ [93]
    /\ Forall (fun c => Regex.space c = true) ws1
    /\ Forall (fun c => Regex.space c = true) ws2.

(** The standard output of a run is one JSON object with four fields and
    nothing else: the blob id, the object id, the storage URL (the script
    names it [walrusURL]) and the object URL, each with a value. *)
Definition only_the_receipt (out : list jsstring) : Prop :=
  exists b o s u,
    out = [stringify_literal [(js "blobId", Some b); (js "objectId", Some o);
                              (js "walrusURL", Some s); (js "objectURL", Some u)]].

(** A line of the standard output is a JSON object with the four fields. *)
Definition four_fields (line : jsstring) : Prop :=
  exists b o s u,
    line = stringify_literal [(js "blobId", Some b); (js "objectId", Some o);
                              (js "walrusURL", Some s); (js "objectURL", Some u)].

(** No control character, so in particular no line break. *)
Definition printable (s : jsstring) : Prop := Forall (fun c => 32 <= c) s.

(** ** Concrete inputs of the counterexamples and witnesses *)

(** A system whose working directory is [/work] and whose tool prints
    [out]. *)
Definition system_printing (out : jsstring) : system :=
  {| path_resolve := fun p => js "/work/" ++ p;
     execSync := fun _ => {| child_stdout := Some out; child_stderr := [] |} |}.

(** The tool ends with status 0 after printing nothing but a coloured
    notice. *)
Definition colored_notice : jsstring :=
  lit "^[33mwarning: no storage node reachable, nothing stored^[0m".

(** The array of a newly created blob, on one line. *)
Definition compact_inside : jsstring :=
  lit "'blobStoreResult':{'newlyCreated':{'blobObject':{'id':'0xDEAD','blobId':'b64:ABC123'}}}".

Definition compact_block : jsstring :=
  91 :: 123 :: compact_inside ++ [125; 93].

(** The same array between two colour codes, followed by a summary that
    the tool prints after it. *)
Definition output_with_summary : jsstring :=
  lit "^[32m" ++ compact_block ++ lit "^[0m" ++ 10 :: lit "summary: [{'stored': 1}]".

(** The same array between two colour codes, among log lines. *)
Definition output_with_logs : jsstring :=
  lit "[INFO] storing 1 file {epochs: 2}" ++ 10 :: lit "^[1;32m" ++ compact_block
    ++ lit "^[0m" ++ 10 :: lit "[INFO] done".

(** The receipt of the sample. *)
Definition sample_receipt : receipt :=
  {| blobId := Some (JStr (js "b64:ABC123"));
     objectId := Some (JStr (js "0xDEAD"));
     walrusURL := js "https://walruscan.com/testnet/blob/b64:ABC123";
     objectURL := js "https://walruscan.com/testnet/object/0xDEAD" |}.

(** The command line [node upload.js bundle.json]. *)
Definition sample_argv : list jsstring :=
  [js "node"; js "upload.js"; js "bundle.json"].

(** An element without the expected result field. *)
Definition output_without_result : jsstring :=
  lit "[{'path':'/data/bundle.json','error':'insufficient funds'}]".

(** A blob that the network already holds. *)
Definition output_already_certified : jsstring :=
  lit "[{'blobStoreResult':{'alreadyCertified':{'blobId':'b64:ABC123','endEpoch':36}},'path':'/data/bundle.json'}]".

(** A newly created blob whose [blobId] is an object with a [toString] of
    its own, and one whose [blobId] is an array that holds such an
    object. *)
Definition output_with_own_toString : jsstring :=
  lit "[{'blobStoreResult':{'newlyCreated':{'blobObject':{'blobId':{'toString':1},'id':'0xDEAD'}}}}]".

Definition output_with_own_toString_inside : jsstring :=
  lit "[{'blobStoreResult':{'newlyCreated':{'blobObject':{'blobId':[1,null,[{'toString':null}]],'id':'0xDEAD'}}}}]".

(** A newly created blob whose identifiers are an array and an object. *)
Definition output_with_structured_ids : jsstring :=
  lit "[{'blobStoreResult':{'newlyCreated':{'blobObject':{'blobId':[1,null,['a',true]],'id':{'valueOf':1}}}}}]".

(** A newly created blob whose blob object carries no [blobId]. *)
Definition output_without_blobId : jsstring :=
  lit "[{'blobStoreResult':{'newlyCreated':{'blobObject':{'id':'0xDEAD'}}}}]".

(** A table that already holds one proof. *)
Definition table_with_one_proof : Oracle.AuditTable :=
  {| Oracle.id := (7, 0);
     Oracle.proofs := [ {| Oracle.bundle_hash := [Byte.xab; Byte.xcd];
                           Oracle.fairness_score := 87;
                           Oracle.timestamp := 1700000000 |} ] |}.

(** ** Runs of transactions on the ledger *)

(** Entry calls of [anchor_audit] committed one after the other, each
    naming its table: the run aborts at the first call whose table does not
    exist. *)
Fixpoint call_all (shared : gmap Oracle.UID Oracle.AuditTable)
    (calls : list (Oracle.UID * Oracle.anchor_args))
  : option (gmap Oracle.UID Oracle.AuditTable) :=
  match calls with
  | [] => Some shared
  | (ref, a) :: rest =>
      shared' ← Oracle.call_anchor_audit shared ref (Oracle.arg_hash a)
                  (Oracle.arg_score a) (Oracle.arg_time a);
      call_all shared' rest
  end.

(** The proofs that a run appends to the table [ref], in the order of the
    run. *)
Definition appended_to (ref : Oracle.UID)
    (calls : list (Oracle.UID * Oracle.anchor_args)) : list Oracle.AuditProof :=
  omap (fun c => if decide (c.1 = ref) then Some (Oracle.proof_of c.2) else None)
       calls.

(** Two [init_table] calls of one transaction. *)
Definition init_table_twice (ctx : Oracle.TxContext)
    (shared : gmap Oracle.UID Oracle.AuditTable)
  : Oracle.TxContext * gmap Oracle.UID Oracle.AuditTable :=
  let '(ctx1, shared1) := Oracle.init_table ctx shared in
  Oracle.init_table ctx1 shared1.

(** The arguments that made a proof. *)
Definition args_of (p : Oracle.AuditProof) : Oracle.anchor_args :=
  {| Oracle.arg_hash := Oracle.bundle_hash p;
     Oracle.arg_score := Oracle.fairness_score p;
     Oracle.arg_time := Oracle.timestamp p |}.

(** What was anchored between two states of a table. *)
Definition anchored_since (before after : Oracle.AuditTable)
  : list Oracle.anchor_args :=
  map args_of (drop (length (Oracle.proofs before)) (Oracle.proofs after)).

(** Two tables and calls that alternate between them. *)
Definition two_tables : gmap Oracle.UID Oracle.AuditTable :=
  {[ (7, 0) := table_with_one_proof;
     (7, 1) := {| Oracle.id := (7, 1); Oracle.proofs := [] |} ]}.

Definition alternating_calls : list (Oracle.UID * Oracle.anchor_args) :=
  [ ((7, 1), {| Oracle.arg_hash := [Byte.x01]; Oracle.arg_score := 10;
                Oracle.arg_time := 1 |});
    ((7, 0), {| Oracle.arg_hash := [Byte.x02]; Oracle.arg_score := 20;
                Oracle.arg_time := 2 |});
    ((7, 1), {| Oracle.arg_hash := [Byte.x03]; Oracle.arg_score := 30;
                Oracle.arg_time := 3 |}) ].

(** ** Coloured output, piece by piece *)

(** A piece of output: text, or a colour code. *)
Inductive segment :=
| Text (t : jsstring)
| Code (c : jsstring).

Definition well_formed (seg : segment) : Prop :=
  match seg with
  | Text t => plain t
  | Code c => is_color_code c
  end.

(** What the tool writes. *)
Fixpoint written (segs : list segment) : jsstring :=
  match segs with
  | [] => []
  | Text t :: rest => t ++ written rest
  | Code c :: rest => c ++ written rest
  end.

(** What a reader sees. *)
Fixpoint visible (segs : list segment) : jsstring :=
  match segs with
  | [] => []
  | Text t :: rest => t ++ visible rest
  | Code _ :: rest => visible rest
  end.

(** A log line in three colours. *)
Definition colored_line : list segment :=
  [Code (lit "^[1m"); Text (js "INFO"); Code (lit "^[0;32m");
   Text (js " stored [1] blob"); Code (lit "^[m")].

(** The output [output_with_logs], piece by piece. *)
Definition logs_around_block : list segment :=
  [Text (lit "[INFO] storing 1 file {epochs: 2}" ++ [10]);
   Code (lit "^[1;32m"); Text compact_block; Code (lit "^[0m");
   Text (10 :: lit "[INFO] done")].

(** ** Objects of strings *)

(** The properties of an object literal whose values are all strings. *)
Definition text_fields (fields : list (jsstring * jsstring))
  : list (jsstring * jsval) :=
  map (fun kv => (kv.1, Some (JStr kv.2))) fields.

(** One member as [JSON.stringify] writes it: the key, a colon, the
    value. *)
Definition member_text (kv : jsstring * jsstring) : jsstring :=
  quote kv.1 ++ 58 :: quote kv.2.

(** The object [JSON.parse] builds from members read in this order. *)
Definition object_of (fields : list (jsstring * jsstring))
  : list (jsstring * json) :=
  foldl (fun acc kv => obj_set acc kv.1 (JStr kv.2)) [] fields.

(** ** Values without properties *)

(** [undefined] or [null]: the values on which a property read throws. *)
Definition nullish (v : jsval) : Prop := v = None \/ v = Some JNull.

(** ** The upload section of the dashboard ([UploadSection.tsx])

    The values the component handles come out of [res.json()], so they are
    JSON values; [null] is [Some JNull].  The property names it reads
    ([walrus], [blob_id], [blobId], [raw_response], [blob], [id],
    [sui_object_id], [object_id], [objectId], [blob_object_id],
    [explorer_link], [explorer_url], [walrusURL], [objectURL]) are, like
    those of the script, no properties of arrays, strings, numbers or
    booleans, so [get] reads them. *)

Definition null : jsval := Some JNull.

(** [a || b]: [b] is evaluated only when [a] is falsy. *)
Definition js_or (a b : outcome jsval) : outcome jsval :=
  va ← a; if to_boolean va then Return va else b.

(** [a && b]: [b] is evaluated only when [a] is truthy. *)
Definition js_and (a b : outcome jsval) : outcome jsval :=
  va ← a; if to_boolean va then b else Return va.

Infix "<||>" := js_or (at level 50, left associativity).
Infix "<&&>" := js_and (at level 40, left associativity).

(** [v.a.b]. *)
Definition get2 (v : jsval) (a b : jsstring) : outcome jsval :=
  x ← get v a; get x b.

(** [const blobId = w.blob_id || w.blobId || (w.raw_response &&
    (w.raw_response.blobId || w.raw_response.blob_id)) || w.blob || w.id
    || null]. *)
Definition shown_blobId (w : jsval) : outcome jsval :=
  get w (js "blob_id") <||> get w (js "blobId")
  <||> (get w (js "raw_response")
       <&&> (get2 w (js "raw_response") (js "blobId")
            <||> get2 w (js "raw_response") (js "blob_id")))
  <||> get w (js "blob") <||> get w (js "id") <||> Return null.

(** [const objectId = w.sui_object_id || w.object_id || w.objectId ||
    (w.raw_response && (w.raw_response.objectId ||
    w.raw_response.object_id)) || w.blob_object_id || null]. *)
Definition shown_objectId (w : jsval) : outcome jsval :=
  get w (js "sui_object_id") <||> get w (js "object_id")
  <||> get w (js "objectId")
  <||> (get w (js "raw_response")
       <&&> (get2 w (js "raw_response") (js "objectId")
            <||> get2 w (js "raw_response") (js "object_id")))
  <||> get w (js "blob_object_id") <||> Return null.

(** [const explorer = w.explorer_link || w.explorer_url || w.walrusURL ||
    w.objectURL || (w.raw_response && (w.raw_response.walrusURL ||
    w.raw_response.objectURL || w.raw_response.explorer_url)) || null]. *)
Definition shown_explorer (w : jsval) : outcome jsval :=
  get w (js "explorer_link") <||> get w (js "explorer_url")
  <||> get w (js "walrusURL") <||> get w (js "objectURL")
  <||> (get w (js "raw_response")
       <&&> (get2 w (js "raw_response") (js "walrusURL")
            <||> get2 w (js "raw_response") (js "objectURL")
            <||> get2 w (js "raw_response") (js "explorer_url")))
  <||> Return null.

(** An expression that does not throw. *)
Definition returns (e : outcome jsval) : Prop := exists v, e = Return v.

(** An expression whose value is truthy or [null]. *)
Definition truthy_or_null (e : outcome jsval) : Prop :=
  exists v, e = Return v /\ (to_boolean v = true \/ v = null).

(** The three values of the Walrus panel. *)
Record panel := mkPanel {
  panel_blobId : jsval;
  panel_objectId : jsval;
  panel_explorer : jsval
}.

(** [{result && ( ... {result?.walrus && (() => { const w = result.walrus
    || {}; ... })()} ... )}]: the values of the panel, [None] when the
    panel is not drawn. *)
Definition walrus_panel (result : jsval) : outcome (option panel) :=
  if to_boolean result then
    shown ← get result (js "walrus");
    if to_boolean shown then
      w ← get result (js "walrus") <||> Return (Some (JObj []));
      b ← shown_blobId w;
      o ← shown_objectId w;
      e ← shown_explorer w;
      Return (Some {| panel_blobId := b; panel_objectId := o;
                      panel_explorer := e |})
    else Return None
  else Return None.

(** An error object, as [catch] sees it. *)
Record thrown := mkThrown {
  thrown_name : jsstring;
  thrown_message : jsstring
}.


(** What reading the body of a response gives: the text (decoded), or a
    rejection. *)
Inductive body :=
| BodyText (text : jsstring)
| BodyFails (err : thrown).

(** What [fetch] gives: a rejection, or a response with its status. *)
Inductive fetched :=
| Rejected (err : thrown)
| Responded (status : N) (b : body).

(** The browser, as far as the handler consults it: [fetch] on a URL with
    the chosen file as form data, and the [SyntaxError] its JSON parser
    raises on a text that is not JSON. *)
Record browser := mkBrowser {
  fetch : jsstring -> jsstring -> fetched;
  json_error : jsstring -> thrown
}.


Module UploadSection.

(** The four [useState] cells; a file is known by its name. *)
Record state := mkState {
  file : option jsstring;
  uploading : bool;
  result : jsval;
  error : jsval
}.

(** The state of the first render. *)
Definition initial : state :=
  {| file := None; uploading := false; result := null; error := null |}.




(** [onChange] of the file input: [setFile(e.target.files?.[0] || null);
    setResult(null); setError(null)]. *)
Definition choose (chosen : option jsstring) (st : state) : state :=
  {| file := chosen; uploading := uploading st; result := null; error := null |}.

(** [onClick] of the Reset button. *)
Definition reset (st : state) : state :=
  {| file := None; uploading := uploading st; result := null; error := null |}.

End UploadSection.

(** A server that answers 500 with a text. *)
Definition failing_server : browser :=
  {| fetch := fun _ _ => Responded 500 (BodyText (js "Internal Server Error"));
     json_error := fun _ =>
       {| thrown_name := js "SyntaxError";
          thrown_message := js "Unexpected token" |} |}.

(** A state with a file chosen and the result of an earlier upload. *)
Definition state_with_result : UploadSection.state :=
  {| UploadSection.file := Some (js "data.csv");
     UploadSection.uploading := false;
     UploadSection.result := Some (JObj [(js "walrus", JObj [])]);
     UploadSection.error := null |}.

(* ===================================================================== *)
(** * Part III. The ledger: theorems                                      *)
(* ===================================================================== *)

Section Ledger.
Import Oracle.

Lemma anchor_all_proofs (calls : list anchor_args) (table : AuditTable) :
  proofs (anchor_all table calls) = proofs table ++ map proof_of calls.
Proof.
  unfold anchor_all.
  revert table; induction calls as [|a calls IH]; intros table; simpl.
  - by rewrite app_nil_r.
  - rewrite IH. simpl. by rewrite <- app_assoc.
Qed.

Lemma anchor_all_id (calls : list anchor_args) (table : AuditTable) :
  id (anchor_all table calls) = id table.
Proof.
  unfold anchor_all.
  revert table; induction calls as [|a calls IH]; intros table; simpl;
    [done | by rewrite IH].
Qed.

Lemma run_op_prefix (table : AuditTable) (op : ledger_op) :
  proofs table `prefix_of` proofs (fst (run_op table op)).
Proof.
  destruct op as [a|]; simpl.
  - by apply prefix_app_r.
  - done.
Qed.

Lemma run_ops_prefix (ops : list ledger_op) (table : AuditTable) :
  proofs table `prefix_of` proofs (run_ops table ops).
Proof.
  unfold run_ops.
  revert table; induction ops as [|op ops IH]; intros table; simpl.
  - done.
  - etrans; [apply (run_op_prefix table op) | apply IH].
Qed.

(** C2.  The table that [init_table] shares is found under the identifier
    derived from the context and has [proof_count] 0.  After any sequence
    of [anchor_audit] calls applied one at a time to a freshly initialised
    table, [proof_count] is exactly the number of calls and the stored
    sequence is exactly the appended proofs, in the order of the calls.
    This is so because every call appends: on any table the count
    afterwards is the count before plus the number of calls, and the
    sequence is the previous proofs followed by the appended ones. *)
Theorem C2_proof_count_after_anchoring :
  (forall ctx shared,
      exists table,
        (init_table ctx shared).2 !! (tx_hash ctx, ids_created ctx) = Some table
        /\ proofs table = []
        /\ call_proof_count (init_table ctx shared).2
             (tx_hash ctx, ids_created ctx) = Some 0)
  /\ (forall table calls,
         proof_count (anchor_all table calls)
         = proof_count table + N.of_nat (length calls)
         /\ proofs (anchor_all table calls)
            = proofs table ++ map proof_of calls)
  /\ (forall table calls,
         proofs table = [] ->
         proof_count (anchor_all table calls) = N.of_nat (length calls)
         /\ proofs (anchor_all table calls) = map proof_of calls).
Proof.
  split; [|split].
  - intros ctx shared.
    exists {| id := (tx_hash ctx, ids_created ctx); proofs := [] |}.
    unfold call_proof_count, init_table; simpl.
    rewrite !lookup_insert_eq. by repeat split.
  - intros table calls. split; [|apply anchor_all_proofs].
    unfold proof_count. rewrite anchor_all_proofs.
    rewrite length_app, length_map. lia.
  - intros table calls Hempty.
    unfold proof_count. rewrite anchor_all_proofs, Hempty. simpl.
    by rewrite length_map.
Qed.

(** C7.  On a valid table reference [anchor_audit] succeeds whatever the
    hash, the score and the timestamp are; afterwards the table holds its
    previous proofs followed by one proof made of the three arguments as
    given, its identity is unchanged, and no other shared table has
    changed. *)
Theorem C7_anchor_audit_unconditional
    (shared : gmap UID AuditTable) (ref : UID) (table : AuditTable)
    (hash : list u8) (score time : u64) :
  shared !! ref = Some table ->
  exists shared',
    call_anchor_audit shared ref hash score time = Some shared'
    /\ shared' !! ref
       = Some {| id := id table;
                 proofs := proofs table
                             ++ [ {| bundle_hash := hash;
                                     fairness_score := score;
                                     timestamp := time |} ] |}
    /\ forall other, other <> ref -> shared' !! other = shared !! other.
Proof.
  intros Hin. unfold call_anchor_audit. rewrite Hin. simpl.
  eexists; split; [reflexivity|]. split.
  - by rewrite lookup_insert_eq.
  - intros other Hne. by rewrite lookup_insert_ne.
Qed.

(** C7 at a table with one proof, an empty hash and the largest score. *)
Lemma C7_anchor_audit_unconditional_witness :
  exists shared',
    call_anchor_audit {[ (7, 0) := table_with_one_proof ]} (7, 0)
      [] (2 ^ 64 - 1) 0 = Some shared'
    /\ shared' !! (7, 0)
       = Some {| id := id table_with_one_proof;
                 proofs := proofs table_with_one_proof
                             ++ [ {| bundle_hash := [];
                                     fairness_score := 2 ^ 64 - 1;
                                     timestamp := 0 |} ] |}
    /\ forall other, other <> (7, 0) ->
         shared' !! other
         = ({[ (7, 0) := table_with_one_proof ]} : gmap UID AuditTable) !! other.
Proof.
  apply (C7_anchor_audit_unconditional
           {[ (7, 0) := table_with_one_proof ]} (7, 0) table_with_one_proof).
  apply lookup_singleton_eq.
Defined.

(** C8.  Whatever sequence of operations ([anchor_audit] or
    [proof_count]) is run on a table, the proofs it held before are a
    prefix of the proofs it holds afterwards: the length has not
    decreased and every entry is where it was, unchanged. *)
Theorem C8_append_only (table : AuditTable) (ops : list ledger_op) :
  proofs table `prefix_of` proofs (run_ops table ops)
  /\ (length (proofs table) <= length (proofs (run_ops table ops)))%nat
  /\ (forall i p,
         proofs table !! i = Some p ->
         proofs (run_ops table ops) !! i = Some p)
  /\ (forall op, proofs table `prefix_of` proofs (fst (run_op table op))).
Proof.
  pose proof (run_ops_prefix ops table) as Hpre.
  split; [done|]. split; [by apply prefix_length|]. split.
  - intros i p Hi. by eapply prefix_lookup_Some.
  - apply run_op_prefix.
Qed.

End Ledger.

(* ===================================================================== *)
(** * Part IV. The matcher against the language of a pattern              *)
(* ===================================================================== *)

Section Matcher.
Import Regex.

Lemma match_one cls r c s :
  match_here (One cls :: r) (c :: s)
  = if cls c
    then match match_here r s with
         | Some (m, rest) => Some (c :: m, rest)
         | None => None
         end
    else None.
Proof. reflexivity. Qed.

Lemma match_star cls r s :
  match_here (Star cls :: r) s
  = match s with
    | c :: s' =>
        if cls c
        then match match_here (Star cls :: r) s' with
             | Some (m, rest) => Some (c :: m, rest)
             | None => match_here r s
             end
        else match_here r s
    | [] => match_here r []
    end.
Proof. destruct s; reflexivity. Qed.

(** What the matcher returns is a split of the input whose first part is
    in the language of the pattern. *)
Lemma match_here_sound r : forall s m rest,
  match_here r s = Some (m, rest) -> s = m ++ rest /\ matches r m.
Proof.
  induction r as [|[cls|cls] r IH]; intros s m rest H.
  - simpl in H. by inversion H.
  - destruct s as [|c s]; [done|]. rewrite match_one in H.
    destruct (cls c) eqn:Hc; [|done].
    destruct (match_here r s) as [[m' rest']|] eqn:Hm; [|done].
    inversion H; subst. destruct (IH _ _ _ Hm) as [-> Hr].
    split; [done|]. simpl. eauto.
  - revert m rest H. induction s as [|c s IHs]; intros m rest H;
      rewrite match_star in H.
    + destruct (IH _ _ _ H) as [Hs Hr]. split; [done|].
      exists [], m. by repeat split.
    + assert (Hstop : match_here r (c :: s) = Some (m, rest) ->
                      c :: s = m ++ rest /\ matches (Star cls :: r) m).
      { intros H'. destruct (IH _ _ _ H') as [Hs Hr]. split; [done|].
        exists [], m. by repeat split. }
      destruct (cls c) eqn:Hc; [|by auto].
      destruct (match_here (Star cls :: r) s) as [[m' rest']|] eqn:Hm;
        [|by auto].
      inversion H; subst.
      destruct (IHs _ _ eq_refl) as [-> (w & m'' & -> & Hw & Hr)].
      split; [done|]. exists (c :: w), m''. repeat split; auto.
Qed.

(** Whenever a prefix of the input is in the language, the matcher finds
    a match. *)
Lemma match_here_complete r : forall m rest,
  matches r m -> is_Some (match_here r (m ++ rest)).
Proof.
  induction r as [|[cls|cls] r IH]; intros m rest Hm.
  - simpl in *. by subst.
  - destruct Hm as (c & m' & -> & Hc & Hm').
    simpl app. rewrite match_one, Hc.
    destruct (IH m' rest Hm') as [[m1 r1] ->]. done.
  - destruct Hm as (w & m' & -> & Hw & Hm'). rewrite <- app_assoc.
    induction Hw as [|c w Hc Hw IHw].
    + simpl app. rewrite match_star.
      pose proof (IH m' rest Hm') as Hsome.
      destruct (m' ++ rest) as [|c s] eqn:Heq; [done|].
      destruct (cls c); [|done].
      by destruct (match_here (Star cls :: r) s) as [[m1 r1]|].
    + simpl app. rewrite match_star, Hc.
      destruct IHw as [[m1 r1] ->]. done.
Qed.

Lemma search_unfold r s :
  search r s
  = match match_here r s with
    | Some (m, rest) => Some ([], m, rest)
    | None =>
        match s with
        | [] => None
        | c :: s' =>
            match search r s' with
            | Some (pre, m, rest) => Some (c :: pre, m, rest)
            | None => None
            end
        end
    end.
Proof. destruct s; reflexivity. Qed.

Lemma search_sound r : forall s pre m post,
  search r s = Some (pre, m, post) -> s = pre ++ m ++ post /\ matches r m.
Proof.
  induction s as [|c s IH]; intros pre m post H; simpl in H.
  - destruct (match_here r []) as [[m' rest']|] eqn:Hm; [|done].
    inversion H; subst. by apply match_here_sound in Hm.
  - destruct (match_here r (c :: s)) as [[m' rest']|] eqn:Hm.
    + inversion H; subst. by apply match_here_sound in Hm.
    + destruct (search r s) as [[[pre' m'] post']|] eqn:Hs; [|done].
      inversion H; subst. destruct (IH _ _ _ eq_refl) as [-> Hr]. done.
Qed.

(** The search fails exactly on the strings no substring of which is in
    the language of the pattern. *)
Lemma search_None r s : search r s = None <-> ~ occurs r s.
Proof.
  split.
  - intros H (pre & m & post & -> & Hm).
    induction pre as [|c pre IH]; rewrite search_unfold in H.
    + destruct (match_here_complete r m post Hm) as [[m1 r1] Heq].
      simpl app in H. by rewrite Heq in H.
    + simpl app in H.
      destruct (match_here r (c :: pre ++ m ++ post)) as [[m1 r1]|]; [done|].
      destruct (search r (pre ++ m ++ post)) as [[[p1 m1] r1]|]; [done|].
      by apply IH.
  - intros Hno. destruct (search r s) as [[[pre m] post]|] eqn:Hs; [|done].
    destruct Hno. apply search_sound in Hs as [-> Hm]. by exists pre, m, post.
Qed.

Lemma match_here_None r s : ~ occurs r s -> match_here r s = None.
Proof.
  intros Hno. destruct (match_here r s) as [[m rest]|] eqn:Hm; [|done].
  destruct Hno. apply match_here_sound in Hm as [-> Hm]. by exists [], m, rest.
Qed.

Lemma occurs_cons r c s : occurs r s -> occurs r (c :: s).
Proof. intros (pre & m & post & -> & Hm). by exists (c :: pre), m, post. Qed.

Lemma occurs_app_l r a s : occurs r s -> occurs r (a ++ s).
Proof.
  intros (pre & m & post & -> & Hm). exists (a ++ pre), m, post.
  by rewrite <- app_assoc.
Qed.

Lemma occurs_app_r r a s : occurs r s -> occurs r (s ++ a).
Proof.
  intros (pre & m & post & -> & Hm). exists pre, m, (post ++ a).
  by rewrite <- !app_assoc.
Qed.

(** A greedy star takes a whole run of its class when the rest of the
    pattern matches after the run. *)
Lemma match_star_run cls r w : forall t m rest,
  Forall (fun c => cls c = true) w ->
  match_here (Star cls :: r) t = Some (m, rest) ->
  match_here (Star cls :: r) (w ++ t) = Some (w ++ m, rest).
Proof.
  intros t m rest Hw Ht. induction Hw as [|c w Hc Hw IH]; [done|].
  simpl app. rewrite match_star, Hc, IH. done.
Qed.

Lemma match_star_stop cls r c s :
  cls c = false ->
  match_here (Star cls :: r) (c :: s) = match_here r (c :: s).
Proof. intros Hc. rewrite match_star. by rewrite Hc. Qed.

(** Once a match is dropped, removal resumes behind it. *)
Lemma remove_from_skip r a s :
  remove_from r (length a) (a ++ s) = remove_from r O s.
Proof. induction a as [|c a IH]; [done|]. simpl. apply IH. Qed.

Lemma remove_all_match r c m rest :
  match_here r (c :: m ++ rest) = Some (c :: m, rest) ->
  remove_all r (c :: m ++ rest) = remove_all r rest.
Proof.
  intros H. unfold remove_all. cbn [remove_from]. rewrite H.
  apply remove_from_skip.
Qed.

Lemma remove_all_keep r c s :
  match_here r (c :: s) = None ->
  remove_all r (c :: s) = c :: remove_all r s.
Proof. intros H. unfold remove_all. cbn [remove_from]. by rewrite H. Qed.

End Matcher.

(* ===================================================================== *)
(** * Part V. Sanitation and extraction                                   *)
(* ===================================================================== *)

Section Extraction.
Import Regex.

(** A delimiter pattern ([a], white space, [b]) followed by [r] matches a
    delimiter followed by a match of [r]. *)
Lemma match_delimiter a b r w t m rest :
  space b = false ->
  Forall (fun c => space c = true) w ->
  match_here r t = Some (m, rest) ->
  match_here (One (chr a) :: Star space :: One (chr b) :: r)
             (a :: w ++ b :: t)
  = Some (a :: w ++ b :: m, rest).
Proof.
  intros Hb Hw Hr. rewrite match_one. unfold chr at 1. rewrite N.eqb_refl.
  rewrite (match_star_run space (One (chr b) :: r) w (b :: t) (b :: m) rest Hw).
  - done.
  - rewrite match_star_stop by done. rewrite match_one.
    unfold chr at 1. by rewrite N.eqb_refl, Hr.
Qed.

Lemma matches_delimiter a b o :
  matches [One (chr a); Star space; One (chr b)] o
  <-> exists w, o = a :: w ++ [b] /\ Forall (fun c => space c = true) w.
Proof.
  split.
  - intros (c & m & -> & Hc & w & m' & -> & Hw & c' & m'' & -> & Hc' & ->).
    apply N.eqb_eq in Hc, Hc'. subst. by exists w.
  - intros (w & -> & Hw). exists a, (w ++ [b]). split; [done|].
    split; [apply N.eqb_refl|]. exists w, [b]. repeat split; [done|].
    exists b, []. repeat split. apply N.eqb_refl.
Qed.

Lemma occurs_star_any r s : occurs (Star any :: r) s -> occurs r s.
Proof.
  intros (pre & m & post & -> & w & m' & -> & _ & Hm).
  exists (pre ++ w), m', post. by rewrite <- !app_assoc.
Qed.

(** A closer cannot begin inside a text without closing brace. *)
Lemma closer_not_before u post :
  Forall (fun c => c <> 125) u ->
  occurs closer (u ++ post) -> occurs closer post.
Proof.
  intros Hu (pre & m & rest & Heq & Hm).
  revert pre Heq. induction Hu as [|x u Hx Hu IH]; intros pre Heq.
  - by exists pre, m, rest.
  - destruct pre as [|y pre].
    + destruct Hm as (c & m' & -> & Hc & _). apply N.eqb_eq in Hc.
      simpl in Heq. inversion Heq. congruence.
    + simpl in Heq. inversion Heq. eauto.
Qed.

(** [[\s\S]*] followed by the closer stops at the last closer. *)
Lemma match_last_closer c post :
  matches closer c ->
  ~ occurs closer post ->
  forall a, match_here (Star any :: closer) (a ++ c ++ post)
            = Some (a ++ c, post).
Proof.
  intros Hc Hpost.
  apply matches_delimiter in Hc as (w & -> & Hw).
  assert (Hhere : match_here closer ((125 :: w ++ [93]) ++ post)
                  = Some (125 :: w ++ [93], post)).
  { simpl app. rewrite <- app_assoc. simpl app.
    by apply (match_delimiter 125 93 [] w post [] post). }
  induction a as [|x a IH].
  - simpl app at 1. simpl app at 2. rewrite match_star. simpl any. cbv iota.
    rewrite (match_here_None (Star any :: closer) ((w ++ [93]) ++ post)).
    + exact Hhere.
    + intros Hocc. apply Hpost. apply occurs_star_any in Hocc.
      apply (closer_not_before (w ++ [93])); [|done].
      apply Forall_app. split.
      * eapply Forall_impl; [exact Hw|]. intros ? ? ->. done.
      * by repeat constructor.
  - simpl app. rewrite match_star. simpl any. cbv iota.
    simpl app in IH. by rewrite IH.
Qed.

(** A block is matched in full when no closer follows it. *)
Lemma match_block block post :
  is_block block ->
  ~ occurs closer post ->
  match_here json_block (block ++ post) = Some (block, post).
Proof.
  intros (ws1 & mid & ws2 & -> & Hw1 & Hw2) Hpost.
  assert (Hc : matches closer (125 :: ws2 ++ [93])).
  { apply matches_delimiter. by exists ws2. }
  pose proof (match_last_closer _ post Hc Hpost mid) as Hlast.
  pose proof (match_delimiter 91 123 (Star any :: closer) ws1
                (mid ++ (125 :: ws2 ++ [93]) ++ post) _ _
                eq_refl Hw1 Hlast) as H.
  unfold json_block, opener. simpl app.
  repeat (rewrite <- ?app_assoc; simpl app).
  repeat (rewrite <- ?app_assoc in H; simpl app in H).
  exact H.
Qed.

(** An opener that starts before a block lies before the block. *)
Lemma opener_before pre t w z :
  Forall (fun c => space c = true) w ->
  pre ++ 91 :: t = w ++ 123 :: z ->
  exists l, pre = w ++ 123 :: l.
Proof.
  intros Hw. revert pre. induction Hw as [|x w Hx Hw IH]; intros pre Heq.
  - destruct pre as [|y pre]; simpl in Heq; inversion Heq. by exists pre.
  - destruct pre as [|y pre]; simpl in Heq; inversion Heq; subst.
    + done.
    + destruct (IH pre) as [l ->]; [done|]. by exists l.
Qed.

(** No match of the whole pattern starts in a text without opener that is
    followed by a block. *)
Lemma search_skips pre t :
  ~ occurs opener pre ->
  search json_block (pre ++ 91 :: t)
  = match search json_block (91 :: t) with
    | Some (p, m, rest) => Some (pre ++ p, m, rest)
    | None => None
    end.
Proof.
  induction pre as [|x pre IH]; intros Hno.
  - simpl app. by destruct (search json_block (91 :: t)) as [[[??]?]|].
  - simpl app. rewrite search_unfold.
    destruct (match_here json_block (x :: pre ++ 91 :: t))
      as [[m rest]|] eqn:Hm.
    + exfalso. apply match_here_sound in Hm as [Heq Hm].
      destruct Hm as (c & m1 & -> & Hc & w & m2 & -> & Hw
                        & c' & m3 & -> & Hc' & _).
      apply N.eqb_eq in Hc, Hc'. subst.
      simpl in Heq. inversion Heq as [[Hx Hrest]].
      rewrite <- !app_assoc in Hrest. simpl in Hrest.
      destruct (opener_before pre t w _ Hw Hrest) as [l ->].
      apply Hno. exists [], (91 :: w ++ [123]), l. split.
      * simpl. by rewrite Hx, <- app_assoc.
      * apply matches_delimiter. by exists w.
    + rewrite IH.
      * by destruct (search json_block (91 :: t)) as [[[??]?]|].
      * intros Hocc. apply Hno. by apply occurs_cons.
Qed.

(** The extraction lemma: a block with no opener before it and no closer
    after it is what the search returns. *)
Lemma search_block pre block post :
  is_block block ->
  ~ occurs opener pre ->
  ~ occurs closer post ->
  search json_block (pre ++ block ++ post) = Some (pre, block, post).
Proof.
  intros Hblock Hpre Hpost.
  pose proof (match_block block post Hblock Hpost) as Hm.
  destruct Hblock as (ws1 & mid & ws2 & -> & _ & _).
  simpl app in *. rewrite search_skips by done.
  rewrite search_unfold, Hm. by rewrite app_nil_r.
Qed.

(** *** Colour codes *)

Lemma match_color_code code s :
  is_color_code code ->
  match_here color_code (code ++ s) = Some (code, s).
Proof.
  intros (ps & -> & Hps). unfold color_code. simpl app.
  rewrite match_one. unfold chr at 1. rewrite N.eqb_refl.
  rewrite match_one. unfold chr at 1. rewrite N.eqb_refl.
  rewrite <- app_assoc. simpl app.
  rewrite (match_star_run sgr_param [One (chr 109)] ps (109 :: s) [109] s Hps).
  - done.
  - rewrite match_star_stop by done. rewrite match_one.
    unfold chr at 1. by rewrite N.eqb_refl.
Qed.

(** A colour code at the head of the text is removed. *)
Lemma remove_color_code code s :
  is_color_code code ->
  remove_all color_code (code ++ s) = remove_all color_code s.
Proof.
  intros Hcode. pose proof (match_color_code code s Hcode) as Hm.
  destruct Hcode as (ps & -> & _).
  by apply (remove_all_match color_code 27 (91 :: ps ++ [109]) s).
Qed.

(** Text without ESC is kept as it is. *)
Lemma remove_plain a s :
  plain a ->
  remove_all color_code (a ++ s) = a ++ remove_all color_code s.
Proof.
  intros Ha. induction Ha as [|c a Hc Ha IH]; [done|].
  simpl app. rewrite remove_all_keep.
  - by rewrite IH.
  - unfold color_code. rewrite match_one. unfold chr at 1.
    by destruct (N.eqb_spec 27 c).
Qed.

Lemma remove_plain_all s : plain s -> remove_all color_code s = s.
Proof.
  intros Hs. rewrite <- (app_nil_r s) at 1. rewrite remove_plain by done.
  by rewrite app_nil_r.
Qed.

(** Colour codes wrapped around a block, between plain texts. *)
Lemma remove_wrapping pre code1 block code2 post :
  plain pre -> is_color_code code1 -> plain block ->
  is_color_code code2 -> plain post ->
  remove_all color_code (pre ++ code1 ++ block ++ code2 ++ post)
  = pre ++ block ++ post.
Proof.
  intros Hpre H1 Hblock H2 Hpost.
  rewrite remove_plain, remove_color_code, remove_plain,
    remove_color_code, remove_plain_all by done.
  done.
Qed.

End Extraction.

(* ===================================================================== *)
(** * Part VI. [JSON.parse] never runs out of fuel                        *)
(* ===================================================================== *)

Section ParserFuel.
Import JSON.

Lemma skip_ws_length s : (length (skip_ws s) <= length s)%nat.
Proof.
  induction s as [|c s IH]; simpl; [lia|].
  destruct (ws c); simpl; lia.
Qed.

Lemma span_length p s a b :
  span p s = (a, b) -> (length b <= length s)%nat.
Proof.
  revert a b. induction s as [|c s IH]; intros a b H; simpl in H.
  - inversion H. simpl. lia.
  - destruct (p c).
    + destruct (span p s) as [a' b'] eqn:Hs. inversion H; subst.
      specialize (IH _ _ eq_refl). simpl. lia.
    + inversion H. simpl. lia.
Qed.

Lemma strip_prefix_length p : forall s rest,
  strip_prefix p s = Some rest -> (length rest <= length s)%nat.
Proof.
  induction p as [|a p IH]; intros s rest H; simpl in H.
  - destruct s; inversion H; lia.
  - destruct s as [|b s]; [done|]. destruct (a =? b); [|done].
    apply IH in H. simpl. lia.
Qed.

Lemma parse_chars_length : forall n s str rest,
  (length s <= n)%nat ->
  parse_chars s = Some (str, rest) -> (length rest < length s)%nat.
Proof.
  induction n as [|n IH]; intros s str rest Hn H.
  - destruct s; [done|simpl in Hn; lia].
  - destruct s as [|c s1]; [done|]. simpl in Hn. cbn [parse_chars] in H.
    destruct (c =? 34).
    { inversion H; subst. simpl. lia. }
    destruct (c =? 92).
    { destruct s1 as [|e s2]; [done|]. destruct (e =? 117).
      - destruct s2 as [|h1 [|h2 [|h3 [|h4 s3]]]]; try done.
        destruct (hex_value h1), (hex_value h2), (hex_value h3),
          (hex_value h4); try done.
        destruct (parse_chars s3) as [[str' rest']|] eqn:Hs; [|done].
        inversion H; subst. apply IH in Hs; simpl in *; lia.
      - destruct (unescape e); [|done].
        destruct (parse_chars s2) as [[str' rest']|] eqn:Hs; [|done].
        inversion H; subst. apply IH in Hs; simpl in *; lia. }
    destruct (c <? 32); [done|].
    destruct (parse_chars s1) as [[str' rest']|] eqn:Hs; [|done].
    inversion H; subst. apply IH in Hs; simpl in *; lia.
Qed.

Lemma expect_length c s rest :
  expect c s = Some rest -> length s = S (length rest).
Proof.
  destruct s as [|x s]; [done|]. unfold expect.
  destruct (x =? c); [|done]. by intros [= ->].
Qed.

Lemma parse_number_length s d rest :
  parse_number s = Some (d, rest) -> (length rest <= length s)%nat.
Proof.
  unfold parse_number. intros H.
  repeat case_match; simplify_eq;
    repeat match goal with
           | H : span _ _ = _ |- _ => apply span_length in H
           | H : expect _ _ = Some _ |- _ => apply expect_length in H
           end;
    cbn [length] in *; lia.
Qed.

Lemma keyword_length word v s v' rest :
  keyword word v s = Parsed v' rest -> (length rest <= length s)%nat.
Proof.
  unfold keyword. intros H.
  destruct (strip_prefix word s) eqn:Hs; [|done].
  inversion H; subst. by eapply strip_prefix_length.
Qed.

Ltac lengths :=
  repeat match goal with
         | H : expect _ _ = Some _ |- _ => apply expect_length in H
         | H : parse_chars _ = Some _ |- _ =>
             apply (parse_chars_length _ _ _ _ (Nat.le_refl _)) in H
         | H : parse_number _ = Some _ |- _ => apply parse_number_length in H
         | H : keyword _ _ _ = Parsed _ _ |- _ => apply keyword_length in H
         | H : skip_ws ?s = _ :: _ |- _ =>
             let L := fresh "L" in
             pose proof (skip_ws_length s) as L; rewrite H in L; clear H
         end;
  repeat match goal with
         | |- context [skip_ws ?s] =>
             lazymatch goal with
             | _ : (length (skip_ws s) <= length s)%nat |- _ => fail
             | _ => pose proof (skip_ws_length s)
             end
         | _ : context [skip_ws ?s] |- _ =>
             lazymatch goal with
             | _ : (length (skip_ws s) <= length s)%nat |- _ => fail
             | _ => pose proof (skip_ws_length s)
             end
         end;
  cbn [length] in *.

(** What a parser leaves is no longer than what it was given, and with
    fuel of twice the length of the input (and one or two more) it does
    not come to the end of its fuel. *)
Lemma parse_fuel : forall n,
  (forall s,
      (forall v r, parse_value n s = Parsed v r ->
                   (length r <= length s)%nat)
      /\ ((2 * length s + 1 <= n)%nat -> parse_value n s <> Exhausted))
  /\ (forall s acc,
        (forall v r, parse_elements n s acc = Parsed v r ->
                     (length r <= length s)%nat)
        /\ ((2 * length s + 2 <= n)%nat ->
            parse_elements n s acc <> Exhausted))
  /\ (forall s acc,
        (forall v r, parse_members n s acc = Parsed v r ->
                     (length r <= length s)%nat)
        /\ ((2 * length s + 2 <= n)%nat ->
            parse_members n s acc <> Exhausted)).
Proof.
  induction n as [|n (IHv & IHe & IHm)].
  { repeat split; intros; try done; simpl in *; lia. }
  split; [|split].
  - intros s. cbn [parse_value].
    split.
    + intros v r H.
      repeat case_match; simplify_eq; lengths;
        try (apply IHe in H); try (apply IHm in H); lia.
    + intros Hn H.
      repeat case_match; simplify_eq; lengths;
        try (apply IHe in H; [done|lia]);
        try (apply IHm in H; [done|lia]);
        try (unfold keyword in H; case_match; done).
  - intros s acc. cbn [parse_elements]. split.
    + intros v r H.
      destruct (parse_value n s) as [v' r'| |] eqn:Hv; try done.
      apply IHv in Hv.
      repeat case_match; simplify_eq; lengths;
        try (apply IHe in H); lia.
    + intros Hn H.
      destruct (parse_value n s) as [v' r'| |] eqn:Hv; try done.
      * apply IHv in Hv as Hlen.
        repeat case_match; simplify_eq; lengths.
        apply IHe in H; [done|lia].
      * apply IHv in Hv; [done|lia].
  - intros s acc. cbn [parse_members]. split.
    + intros v r H.
      repeat case_match; simplify_eq;
        try match goal with
            | Hv : parse_value n _ = Parsed _ _ |- _ => apply IHv in Hv
            end;
        lengths; try (apply IHm in H); lia.
    + intros Hn H.
      repeat case_match; simplify_eq;
        try match goal with
            | Hv : parse_value n _ = Parsed _ _ |- _ => apply IHv in Hv
            | Hv : parse_value n _ = Exhausted |- _ =>
                apply IHv in Hv; [done|]
            end;
        lengths; try (apply IHm in H; [done|]); lia.
Qed.

(** [JSON.parse] answers [None] only for a text that is not JSON. *)
Lemma parse_never_exhausted text :
  parse_value (2 * length text + 1) text <> Exhausted.
Proof. apply parse_fuel. lia. Qed.

End ParserFuel.

(* ===================================================================== *)
(** * Part VII. What [JSON.stringify] writes has no line break            *)
(* ===================================================================== *)

Section Printable.

(** Induction on JSON values, with the hypothesis at every element and at
    every member. *)
Lemma json_induction (P : json -> Prop) :
  P JNull ->
  (forall b, P (JBool b)) ->
  (forall d, P (JNum d)) ->
  (forall s, P (JStr s)) ->
  (forall elems, Forall P elems -> P (JArr elems)) ->
  (forall props, Forall (fun kv => P kv.2) props -> P (JObj props)) ->
  forall v, P v.
Proof.
  intros HN HB HD HS HA HO. fix IH 1. intros [|b|d|s|elems|props].
  - exact HN.
  - apply HB.
  - apply HD.
  - apply HS.
  - apply HA. induction elems as [|x elems IHl]; constructor.
    + apply IH.
    + exact IHl.
  - apply HO. induction props as [|[k x] props IHl]; constructor.
    + apply IH.
    + exact IHl.
Qed.

Lemma printable_check s : forallb (N.leb 32) s = true -> printable s.
Proof.
  intros H. apply Forall_forall. intros c Hc.
  rewrite forallb_forall in H. apply N.leb_le, H.
  by apply list_elem_of_In.
Qed.

Lemma printable_app a b : printable a -> printable b -> printable (a ++ b).
Proof. intros. by apply Forall_app. Qed.

Lemma printable_cons c s : 32 <= c -> printable s -> printable (c :: s).
Proof. intros. by constructor. Qed.

Lemma printable_digits d : printable (uint_units d).
Proof.
  induction d; simpl; try constructor; try done; lia.
Qed.

Lemma printable_decimal n : printable (decimal_of_N n).
Proof. apply printable_digits. Qed.

Lemma printable_repeat c n : 32 <= c -> printable (repeat c n).
Proof. intros Hc. induction n; simpl; by constructor. Qed.

Lemma printable_exponent n : printable (Number.exponent_part n).
Proof.
  unfold Number.exponent_part.
  apply printable_cons; [lia|]. apply printable_cons.
  - destruct (0 <=? n - 1)%Z; lia.
  - apply printable_decimal.
Qed.

Lemma printable_layout ds n : printable ds -> printable (Number.layout ds n).
Proof.
  intros Hds. unfold Number.layout.
  pose proof (printable_exponent n) as Hexp.
  repeat case_match; subst.
  - apply printable_app; [done|]. apply printable_repeat. lia.
  - apply printable_app; [by apply Forall_take|].
    apply printable_cons; [lia|]. by apply Forall_drop.
  - apply printable_cons; [lia|]. apply printable_cons; [lia|].
    apply printable_app; [|done]. apply printable_repeat. lia.
  - constructor.
  - inversion Hds; subst. by apply printable_cons.
  - inversion Hds; subst. apply printable_cons; [done|].
    apply printable_cons; [lia|]. by apply printable_app.
Qed.

Lemma printable_number d : printable (Number.to_string d).
Proof.
  destruct d as [neg|neg m e|neg]; unfold Number.to_string.
  - by apply printable_check.
  - repeat case_match; apply printable_app;
      try (by apply printable_check);
      apply printable_layout, printable_decimal.
  - destruct neg; by apply printable_check.
Qed.

Lemma hex_digit_printable n : 32 <= hex_digit n.
Proof. unfold hex_digit. destruct (n <? 10); lia. Qed.

Lemma printable_escape c : printable (unicode_escape c).
Proof.
  unfold unicode_escape.
  repeat (apply printable_cons; [first [lia | apply hex_digit_printable]|]).
  constructor.
Qed.

Lemma printable_quote_units : forall n s,
  (length s <= n)%nat -> printable (quote_units s).
Proof.
  induction n as [|n IH]; intros s Hn.
  - destruct s; [constructor|simpl in Hn; lia].
  - destruct s as [|c s']; [constructor|]. simpl in Hn.
    assert (Hs' : printable (quote_units s')) by (apply IH; lia).
    cbn [quote_units].
    do 7 (match goal with
          | |- context [if ?b =? ?k then _ else _] =>
              destruct (b =? k);
              [by repeat (apply printable_cons; [lia|])|]
          end).
    destruct (c <? 32) eqn:Hc.
    { by apply printable_app; [apply printable_escape|]. }
    apply N.ltb_ge in Hc.
    destruct (lead_surrogate c).
    { destruct s' as [|d s'']; [apply printable_escape|].
      destruct (trail_surrogate d) eqn:Hd.
      - apply printable_cons; [done|]. apply printable_cons.
        + unfold trail_surrogate in Hd.
          apply andb_prop in Hd as [Hd _]. apply N.leb_le in Hd. lia.
        + apply IH. simpl in Hn. lia.
      - by apply printable_app; [apply printable_escape|]. }
    destruct (trail_surrogate c).
    { by apply printable_app; [apply printable_escape|]. }
    by apply printable_cons.
Qed.

Lemma printable_quote s : printable (quote s).
Proof.
  unfold quote. apply printable_cons; [lia|]. apply printable_app.
  - by apply (printable_quote_units (length s)).
  - by apply printable_check.
Qed.

Lemma printable_join parts :
  Forall printable parts -> printable (join_comma parts).
Proof.
  induction 1 as [|x parts Hx Hparts IH]; [constructor|].
  destruct parts as [|y parts]; [done|].
  change (join_comma (x :: y :: parts))
    with (x ++ 44 :: join_comma (y :: parts)).
  apply printable_app; [done|]. apply printable_cons; [lia|done].
Qed.

Lemma insert_index_Forall {A} (P : A -> Prop) i x (l : list (N * A)) :
  P x -> Forall (fun p => P p.2) l ->
  Forall (fun p => P p.2) (insert_index i x l).
Proof.
  intros Hx Hl. induction Hl as [|[j y] l Hy Hl IH]; simpl.
  - by repeat constructor.
  - destruct (i <? j); repeat constructor; done.
Qed.

(** Ordering the properties neither adds nor changes a value. *)
Lemma own_property_order_Forall {A} (P : A -> Prop)
    (props : list (jsstring * A)) :
  Forall (fun kv => P kv.2) props -> Forall P (own_property_order props).
Proof.
  intros Hprops. unfold own_property_order. apply Forall_app. split.
  - apply Forall_fmap.
    induction Hprops as [|[k x] props Hx Hprops IH]; simpl; [constructor|].
    destruct (array_index k); [|done]. by apply insert_index_Forall.
  - induction Hprops as [|[k x] props Hx Hprops IH]; [constructor|].
    cbn [omap list_omap]. destruct (array_index k); simpl; [done|].
    by constructor.
Qed.

Lemma printable_stringify v : printable (JSON_stringify v).
Proof.
  induction v as [|b|d|s|elems IH|props IH] using json_induction;
    cbn [JSON_stringify].
  - by apply printable_check.
  - destruct b; by apply printable_check.
  - destruct (Number.is_finite d);
      [apply printable_number|by apply printable_check].
  - apply printable_quote.
  - apply printable_cons; [lia|]. apply printable_app;
      [|by apply printable_check].
    apply printable_join.
    induction IH as [|x elems Hx Helems IHl]; by constructor.
  - apply printable_cons; [lia|]. apply printable_app;
      [|by apply printable_check].
    apply printable_join, own_property_order_Forall.
    induction IH as [|[k x] props Hx Hprops IHl]; constructor; [|done].
    change (printable (quote k ++ 58 :: JSON_stringify x)).
    apply printable_app; [apply printable_quote|].
    apply printable_cons; [lia|done].
Qed.

Lemma printable_stringify_literal fields :
  printable (stringify_literal fields).
Proof.
  unfold stringify_literal. apply printable_cons; [lia|].
  apply printable_app; [|by apply printable_check].
  apply printable_join.
  induction fields as [|[k [j|]] fields IH]; cbn [omap list_omap];
    [constructor| |done].
  constructor; [|done]. apply printable_app; [apply printable_quote|].
  apply printable_cons; [lia|apply printable_stringify].
Qed.

End Printable.

(* ===================================================================== *)
(** * Part VIII. The uploader: theorems                                   *)
(* ===================================================================== *)

Section Uploader.
Import Regex.

Lemma plain_check s :
  forallb (fun c => negb (c =? 27)) s = true -> plain s.
Proof.
  intros H. apply Forall_forall. intros c Hc.
  rewrite forallb_forall in H. apply list_elem_of_In, H in Hc.
  by destruct (N.eqb_spec c 27).
Qed.

Lemma bind_Return {A B} (a : A) (f : A -> outcome B) :
  Return a ≫= f = f a.
Proof. reflexivity. Qed.

(** A primitive value always has a string. *)
Lemma ToString_primitive v : primitive v -> ToString v = Return (to_string v).
Proof. by destruct v as [[| | | | |]|]. Qed.

(** When [ToString] gives a string, it is [to_string]. *)
Lemma ToString_Return v text : ToString v = Return text -> text = to_string v.
Proof.
  destruct v as [j|]; cbn [ToString]; [|congruence].
  destruct (convertible j); congruence.
Qed.

(** What [execSync] hands on is no command, no line of the standard output
    and no exit. *)
Lemma handed_on_spawned run : spawned (handed_on run) = [].
Proof. unfold handed_on. by destruct (child_stderr run). Qed.

Lemma handed_on_stdout run : stdout_of (handed_on run) = [].
Proof. unfold handed_on. by destruct (child_stderr run). Qed.

Lemma handed_on_stderr run : stderr_of (handed_on run) = handed_on run.
Proof. unfold handed_on. by destruct (child_stderr run). Qed.

Lemma handed_on_exit run rest :
  exit_status (handed_on run ++ rest) = exit_status rest.
Proof. unfold handed_on. by destruct (child_stderr run). Qed.

(** A replacement by the empty string only deletes. *)
Lemma remove_from_sublist r : forall s k, remove_from r k s `sublist_of` s.
Proof.
  induction s as [|c s IH]; intros k; cbn [remove_from].
  - constructor.
  - destruct k as [|k]; [|by apply sublist_cons].
    destruct (match_here r (c :: s)) as [[[|x m] rest]|].
    + by apply sublist_skip.
    + by apply sublist_cons.
    + by apply sublist_skip.
Qed.

(** Colour codes among texts without ESC are removed, the texts are
    kept. *)
Lemma remove_all_written segs :
  Forall well_formed segs ->
  remove_all color_code (written segs) = visible segs.
Proof.
  intros Hsegs.
  induction Hsegs as [|[t|c] segs Hseg Hsegs IH]; [done|..];
    cbn [written visible].
  - rewrite remove_plain by done. by rewrite IH.
  - rewrite remove_color_code by done. exact IH.
Qed.

Lemma visible_plain segs : Forall well_formed segs -> plain (visible segs).
Proof.
  induction 1 as [|[t|c] segs Hseg Hsegs IH]; cbn [visible].
  - constructor.
  - by apply Forall_app.
  - exact IH.
Qed.

(** What [parseWalrus] returns on a newly created blob whose identifiers
    have a string. *)
Lemma parseWalrus_newly_created arr b o blob_text object_text :
  newly_created arr b o ->
  ToString b = Return blob_text ->
  ToString o = Return object_text ->
  parseWalrus arr
  = Return {| blobId := b;
              objectId := o;
              walrusURL := explorer_base ++ js "/blob/" ++ blob_text;
              objectURL := explorer_base ++ js "/object/" ++ object_text |}.
Proof.
  intros (entry & rest & result & created & x
            & -> & Hresult & Hcreated & Hx & <- & <-) Hb Ho.
  unfold parseWalrus. cbn [first head]. rewrite bind_Return. cbn [get].
  rewrite Hresult, bind_Return. cbn [get].
  rewrite Hcreated, bind_Return. cbn [to_boolean get].
  rewrite Hx, !bind_Return. cbn [get]. rewrite !bind_Return.
  by rewrite Hb, bind_Return, Ho, bind_Return.
Qed.

(** When [parseWalrus] reaches its [throw]: the first element holds a
    result, an object, whose [newlyCreated] is missing or falsy. *)
Lemma parseWalrus_unsupported entry rest result :
  obj_get entry (js "blobStoreResult") = Some (JObj result) ->
  to_boolean (obj_get result (js "newlyCreated")) = false ->
  parseWalrus (JArr (JObj entry :: rest))
  = Throw (Error (unsupported_message (Some (JObj result)))).
Proof.
  intros Hresult Hfalsy.
  unfold parseWalrus. cbn [first head]. rewrite bind_Return. cbn [get].
  rewrite Hresult, bind_Return. cbn [get].
  destruct (obj_get result (js "newlyCreated")) as [created|] eqn:Hc;
    rewrite bind_Return; by rewrite Hfalsy.
Qed.

(** Without the result field the read of [result.newlyCreated] fails
    first. *)
Lemma parseWalrus_missing_result entry rest :
  obj_get entry (js "blobStoreResult") = None ->
  parseWalrus (JArr (JObj entry :: rest)) = Throw TypeError.
Proof.
  intros Hresult.
  unfold parseWalrus. cbn [first head]. rewrite bind_Return. cbn [get].
  by rewrite Hresult, bind_Return.
Qed.

(** Every success of [parseWalrus] has read the two identifiers from one
    blob object, and built the two URLs from them. *)
Lemma parseWalrus_Return arr r :
  parseWalrus arr = Return r ->
  exists entry result created x,
    first arr = Return entry
    /\ get entry (js "blobStoreResult") = Return result
    /\ get result (js "newlyCreated") = Return created
    /\ to_boolean created = true
    /\ get created (js "blobObject") = Return x
    /\ get x (js "blobId") = Return (blobId r)
    /\ get x (js "id") = Return (objectId r)
    /\ walrusURL r = explorer_base ++ js "/blob/" ++ to_string (blobId r)
    /\ objectURL r = explorer_base ++ js "/object/" ++ to_string (objectId r).
Proof.
  unfold parseWalrus. intros H.
  destruct (first arr) as [entry|] eqn:H1; [|done].
  rewrite bind_Return in H.
  destruct (get entry (js "blobStoreResult")) as [result|] eqn:H2; [|done].
  rewrite bind_Return in H.
  destruct (get result (js "newlyCreated")) as [created|] eqn:H3; [|done].
  rewrite bind_Return in H.
  destruct (to_boolean created) eqn:H4; [|done].
  destruct (get created (js "blobObject")) as [x|] eqn:H5; [|done].
  rewrite bind_Return in H.
  destruct (get x (js "blobId")) as [b|] eqn:H6; [|done].
  rewrite bind_Return in H.
  destruct (get x (js "id")) as [o|] eqn:H7; [|done].
  rewrite bind_Return in H.
  destruct (ToString b) as [blob_text|] eqn:H8; [|done].
  rewrite bind_Return in H.
  destruct (ToString o) as [object_text|] eqn:H9; [|done].
  rewrite bind_Return in H.
  apply ToString_Return in H8, H9.
  inversion H; subst; clear H. cbn [blobId objectId walrusURL objectURL].
  by exists entry, result, created, x.
Qed.

Lemma store_Return raw r :
  store raw = Return r ->
  exists arr, extractJson raw = Return arr /\ parseWalrus arr = Return r.
Proof.
  unfold store. intros H.
  destruct (extractJson raw) as [arr|]; [|done]. by exists arr.
Qed.

(** What [extractJson] does with a block that is alone of its kind. *)
Lemma extractJson_block raw pre block post :
  remove_all color_code raw = pre ++ block ++ post ->
  is_block block ->
  ~ occurs opener pre ->
  ~ occurs closer post ->
  extractJson raw
  = match JSON.parse block with
    | Some v => Return v
    | None => Throw SyntaxError
    end.
Proof.
  intros Hraw Hblock Hpre Hpost. unfold extractJson.
  by rewrite Hraw, search_block.
Qed.

(** The URL templates at identifiers that are no strings: an object with a
    [toString] of its own, alone or inside an array, has no string, and
    [store] throws; other arrays and objects have one. *)
Lemma store_structured_identifiers :
  store output_with_own_toString = Throw TypeError
  /\ store output_with_own_toString_inside = Throw TypeError
  /\ (exists r,
        store output_with_structured_ids = Return r
        /\ walrusURL r = explorer_base ++ js "/blob/1,,a,true"
        /\ objectURL r = explorer_base ++ js "/object/[object Object]").
Proof.
  split; [by vm_compute|]. split; [by vm_compute|].
  eexists. split; [by vm_compute|]. by vm_compute.
Qed.

(** C1.  On the sample output for a newly created blob with blob id
    [b64:ABC123] and object id [0xDEAD] (pretty-printed among coloured
    log lines, or on one line) [store] returns the receipt with these two
    identifiers and the two explorer URLs built on the base
    [https://walruscan.com/testnet]; [walrusURL] is the field the
    specification calls [storageURL]. *)
Theorem C1_store_sample :
  store sample_output = Return sample_receipt
  /\ store compact_block = Return sample_receipt
  /\ walrusURL sample_receipt = explorer_base ++ js "/blob/b64:ABC123"
  /\ objectURL sample_receipt = explorer_base ++ js "/object/0xDEAD".
Proof. by vm_compute. Qed.

(** C3 (the code departs from the claim).  An element without the
    expected result field makes [store] fail with a [TypeError], raised
    by the read of [result.newlyCreated], and not with the error of the
    unsupported shape, which a blob already certified does get. *)
Theorem C3_missing_result_field :
  store output_without_result = Throw TypeError
  /\ store output_already_certified
     = Throw (Error (lit "Unsupported Walrus JSON format: {'alreadyCertified':{'blobId':'b64:ABC123','endEpoch':36}}")).
Proof. by vm_compute. Qed.

(** C4, as the claim states it, fails on output that has colour codes:
    the message carries the output without them. *)
Lemma C4_message_is_sanitized :
  store colored_notice
  = Throw (Error (no_json_message
                    (js "warning: no storage node reachable, nothing stored")))
  /\ ~ carries colored_notice
         (no_json_message (js "warning: no storage node reachable, nothing stored")).
Proof.
  split; [by vm_compute|].
  intros (before & after & Heq).
  assert (Hplain : plain (no_json_message
                            (js "warning: no storage node reachable, nothing stored")))
    by (by apply plain_check).
  rewrite Heq in Hplain.
  apply Forall_app in Hplain as [_ Hplain].
  apply Forall_app in Hplain as [Hplain _].
  by inversion Hplain.
Qed.

(** C4 (amended).  When the output, once its colour codes are removed,
    has no substring made of an opening bracket, white space, an opening
    brace, any text, a closing brace, white space and a closing bracket,
    [store] throws the error whose message is [No JSON returned by
    walrus], a line feed and the output without its colour codes; no
    receipt is returned.  The message carries the output without its
    colour codes; whenever the output has no ESC, that is the captured
    output itself.  The output without its colour codes is the output
    with some code units deleted, and for output made of texts without
    ESC and of colour codes it is the texts. *)
Theorem C4_no_json_found raw :
  ~ occurs json_block (remove_all color_code raw) ->
  store raw = Throw (Error (no_json_message (remove_all color_code raw)))
  /\ carries (remove_all color_code raw)
       (no_json_message (remove_all color_code raw))
  /\ (plain raw -> carries raw (no_json_message (remove_all color_code raw)))
  /\ remove_all color_code raw `sublist_of` raw
  /\ (forall segs,
         Forall well_formed segs -> raw = written segs ->
         store raw = Throw (Error (no_json_message (visible segs)))).
Proof.
  intros Hno. apply search_None in Hno.
  assert (Hstore : store raw
                   = Throw (Error (no_json_message (remove_all color_code raw))))
    by (unfold store, extractJson; by rewrite Hno).
  split; [done|]. split; [|split; [|split]].
  - exists (js "No JSON returned by walrus" ++ [10]), [].
    unfold no_json_message. by rewrite app_nil_r, <- app_assoc.
  - intros Hplain. rewrite (remove_plain_all raw Hplain).
    exists (js "No JSON returned by walrus" ++ [10]), [].
    unfold no_json_message. by rewrite app_nil_r, <- app_assoc.
  - apply remove_from_sublist.
  - intros segs Hsegs ->. by rewrite Hstore, remove_all_written.
Qed.

(** C4 (amended) at the coloured notice. *)
Lemma C4_no_json_found_witness :
  store colored_notice
  = Throw (Error (no_json_message (remove_all color_code colored_notice)))
  /\ carries (remove_all color_code colored_notice)
       (no_json_message (remove_all color_code colored_notice))
  /\ (plain colored_notice ->
      carries colored_notice
        (no_json_message (remove_all color_code colored_notice)))
  /\ remove_all color_code colored_notice `sublist_of` colored_notice
  /\ (forall segs,
         Forall well_formed segs -> colored_notice = written segs ->
         store colored_notice = Throw (Error (no_json_message (visible segs)))).
Proof.
  apply (C4_no_json_found colored_notice).
  apply search_None. vm_compute. reflexivity.
Defined.

Lemma written_logs_around_block : written logs_around_block = output_with_logs.
Proof. reflexivity. Qed.

(** C5, as the claim states it, fails when the tool prints a summary
    with a closing brace and bracket after the array: the array alone
    gives the receipt, but between two colour codes and followed by the
    summary the match runs on to the last closing bracket and
    [JSON.parse] rejects it. *)
Lemma C5_summary_after_array :
  store compact_block = Return sample_receipt
  /\ output_with_summary
     = lit "^[32m" ++ compact_block ++ lit "^[0m"
         ++ 10 :: lit "summary: [{'stored': 1}]"
  /\ search json_block (remove_all color_code output_with_summary)
     = Some ([], compact_block ++ 10 :: lit "summary: [{'stored': 1}]", [])
  /\ store output_with_summary = Throw SyntaxError.
Proof. by vm_compute. Qed.

(** C5 (amended).  On output made of texts without ESC and of colour
    codes, wherever the codes stand, [store] removes the codes and keeps
    the texts before it parses.  When the texts are a block with no
    opener (opening bracket, white space, opening brace) before it and no
    closer (closing brace, white space, closing bracket) after it, the
    block is what the search finds and what [JSON.parse] reads, the text
    around it is discarded, and if the block is the array of a newly
    created blob whose two identifiers are primitive values, the receipt
    holds the two identifiers of its blob object and the two URLs made of
    the explorer base, [/blob/] or [/object/], and the identifier as a
    string. *)
Theorem C5_block_between_logs segs pre block post arr b o :
  Forall well_formed segs ->
  visible segs = pre ++ block ++ post ->
  is_block block ->
  ~ occurs opener pre ->
  ~ occurs closer post ->
  JSON.parse block = Some arr ->
  newly_created arr b o ->
  primitive b ->
  primitive o ->
  remove_all color_code (written segs) = pre ++ block ++ post
  /\ search json_block (remove_all color_code (written segs))
     = Some (pre, block, post)
  /\ extractJson (written segs) = Return arr
  /\ store (written segs)
     = Return {| blobId := b;
                 objectId := o;
                 walrusURL := explorer_base ++ js "/blob/" ++ to_string b;
                 objectURL := explorer_base ++ js "/object/" ++ to_string o |}.
Proof.
  intros Hsegs Hvisible Hblock Hpre Hpost Hparse Hnew Hb Ho.
  assert (Hclean : remove_all color_code (written segs) = pre ++ block ++ post)
    by (by rewrite remove_all_written).
  assert (Hextract : extractJson (written segs) = Return arr).
  { rewrite (extractJson_block _ pre block post) by done.
    by rewrite Hparse. }
  split; [done|]. split; [rewrite Hclean; by apply search_block|].
  split; [done|].
  unfold store. rewrite Hextract, bind_Return.
  apply parseWalrus_newly_created; [done|by apply ToString_primitive..].
Qed.

(** C5 (amended) at the one-line array between two colour codes, with log
    lines in brackets and braces before and after it. *)
Lemma C5_block_between_logs_witness :
  remove_all color_code (written logs_around_block)
  = (lit "[INFO] storing 1 file {epochs: 2}" ++ [10])
      ++ compact_block ++ 10 :: lit "[INFO] done"
  /\ search json_block (remove_all color_code (written logs_around_block))
     = Some (lit "[INFO] storing 1 file {epochs: 2}" ++ [10],
             compact_block, 10 :: lit "[INFO] done")
  /\ extractJson (written logs_around_block)
     = Return (JArr [JObj [(js "blobStoreResult",
                 JObj [(js "newlyCreated",
                   JObj [(js "blobObject",
                     JObj [(js "id", JStr (js "0xDEAD"));
                           (js "blobId", JStr (js "b64:ABC123"))])])])]])
  /\ store (written logs_around_block)
     = Return {| blobId := Some (JStr (js "b64:ABC123"));
                 objectId := Some (JStr (js "0xDEAD"));
                 walrusURL := explorer_base ++ js "/blob/"
                                ++ to_string (Some (JStr (js "b64:ABC123")));
                 objectURL := explorer_base ++ js "/object/"
                                ++ to_string (Some (JStr (js "0xDEAD"))) |}.
Proof.
  apply (C5_block_between_logs logs_around_block
           (lit "[INFO] storing 1 file {epochs: 2}" ++ [10])
           compact_block
           (10 :: lit "[INFO] done")).
  - unfold logs_around_block.
    apply Forall_cons_2; [by apply plain_check|].
    apply Forall_cons_2; [exists [49; 59; 51; 50]; by repeat constructor|].
    apply Forall_cons_2; [by apply plain_check|].
    apply Forall_cons_2; [exists [48]; by repeat constructor|].
    apply Forall_cons_2; [by apply plain_check|].
    apply Forall_nil_2.
  - vm_compute. reflexivity.
  - exists [], compact_inside, []. repeat split; constructor.
  - apply search_None. vm_compute. reflexivity.
  - apply search_None. vm_compute. reflexivity.
  - vm_compute. reflexivity.
  - do 5 eexists. repeat split; vm_compute; reflexivity.
  - exact I.
  - exact I.
Defined.

(** C6, as the claim states it, fails on the sample: the standard output
    of a successful run has the progress line before the JSON object (whose
    third field is named [walrusURL]).  It fails again when the blob object
    has no [blobId]: the run succeeds and the JSON object has three fields
    only. *)
Lemma C6_stdout_of_sample :
  store sample_output = Return sample_receipt
  /\ stdout_of (main (system_printing sample_output) sample_argv)
     = [ js "Uploading to Walrus Testnet: /work/bundle.json";
         lit "{'blobId':'b64:ABC123','objectId':'0xDEAD','walrusURL':'https://walruscan.com/testnet/blob/b64:ABC123','objectURL':'https://walruscan.com/testnet/object/0xDEAD'}" ]
  /\ ~ only_the_receipt
         (stdout_of (main (system_printing sample_output) sample_argv))
  /\ stdout_of (main (system_printing output_without_blobId) sample_argv)
     = [ js "Uploading to Walrus Testnet: /work/bundle.json";
         lit "{'objectId':'0xDEAD','walrusURL':'https://walruscan.com/testnet/blob/undefined','objectURL':'https://walruscan.com/testnet/object/0xDEAD'}" ]
  /\ ~ four_fields
         (lit "{'objectId':'0xDEAD','walrusURL':'https://walruscan.com/testnet/blob/undefined','objectURL':'https://walruscan.com/testnet/object/0xDEAD'}").
Proof.
  split; [by vm_compute|]. split; [by vm_compute|]. split; [|split].
  - intros (b & o & u & v & H).
    apply (f_equal length) in H. vm_compute in H. discriminate.
  - by vm_compute.
  - intros (b & o & u & v & H).
    apply (f_equal (fun l : jsstring => l !! 2%nat)) in H.
    vm_compute in H. discriminate.
Qed.

(** The JSON object of a receipt whose two identifiers are defined. *)
Lemma stringify_final r b o :
  blobId r = Some b -> objectId r = Some o ->
  stringify_literal (final_fields r)
  = lit "{'blobId':" ++ JSON_stringify b
      ++ lit ",'objectId':" ++ JSON_stringify o
      ++ lit ",'walrusURL':" ++ quote (walrusURL r)
      ++ lit ",'objectURL':" ++ quote (objectURL r) ++ [125].
Proof.
  intros Hb Ho. unfold stringify_literal, final_fields.
  rewrite Hb, Ho. cbn [omap list_omap join_comma JSON_stringify].
  change (quote (js "blobId")) with (lit "'blobId'").
  change (quote (js "objectId")) with (lit "'objectId'").
  change (quote (js "walrusURL")) with (lit "'walrusURL'").
  change (quote (js "objectURL")) with (lit "'objectURL'").
  repeat (rewrite <- ?app_assoc; cbn [app lit js map list_ascii_of_string]).
  reflexivity.
Qed.

(** C6 (amended).  [upload] starts one subprocess.  Whatever the tool
    writes to its error stream reaches the error stream of the script,
    handed on by [execSync].  When the tool runs and [store] succeeds, the
    standard output receives the progress line [Uploading to Walrus
    Testnet:] with the resolved path and then one JSON object on a single
    line, with the fields [blobId], [objectId], [walrusURL], [objectURL]
    in this order (a field whose value is undefined is left out); the
    error stream receives what the tool wrote there and nothing more, and
    the exit status is 0.  When the tool fails or [store] throws, the
    standard output has the progress line only, the error stream
    receives what the tool wrote there and then [Upload failed!] with the
    error, and the exit status is 1. *)
Theorem C6_upload_output sys filePath :
  let abs := path_resolve sys filePath in
  let cmd := js "walrus store " ++ abs ++ js " --epochs 2 --json" in
  let progress := js "Uploading to Walrus Testnet: " ++ abs in
  let trace := upload sys filePath in
  let run := execSync sys cmd in
  spawned trace = [cmd]
  /\ match child_stdout run with
     | Some raw =>
         match store raw with
         | Return r =>
             stdout_of trace = [progress; stringify_literal (final_fields r)]
             /\ printable (stringify_literal (final_fields r))
             /\ (forall b o,
                    blobId r = Some b -> objectId r = Some o ->
                    stringify_literal (final_fields r)
                    = lit "{'blobId':" ++ JSON_stringify b
                        ++ lit ",'objectId':" ++ JSON_stringify o
                        ++ lit ",'walrusURL':" ++ quote (walrusURL r)
                        ++ lit ",'objectURL':" ++ quote (objectURL r)
                        ++ [125])
             /\ stderr_of trace = handed_on run
             /\ (child_stderr run = [] -> stderr_of trace = [])
             /\ exit_status trace = 0
         | Throw err =>
             stdout_of trace = [progress]
             /\ stderr_of trace
                = handed_on run ++ [Stderr (js "Upload failed!") err]
             /\ exit_status trace = 1
         end
     | None =>
         stdout_of trace = [progress]
         /\ stderr_of trace
            = handed_on run ++ [Stderr (js "Upload failed!") ChildProcessError]
         /\ exit_status trace = 1
     end.
Proof.
  intros abs cmd progress trace run. subst trace. unfold upload.
  fold abs. fold cmd. fold progress. fold run.
  unfold spawned, stdout_of, stderr_of.
  cbn [omap list_omap]. rewrite !omap_app.
  fold (spawned (handed_on run)) (stdout_of (handed_on run))
       (stderr_of (handed_on run)).
  rewrite handed_on_spawned, handed_on_stdout, handed_on_stderr.
  change (exit_status (Stdout progress :: Spawn cmd :: ?l))
    with (exit_status l).
  rewrite handed_on_exit.
  destruct (child_stdout run) as [raw|]; [|by repeat split].
  destruct (store raw) as [r|err]; [|by repeat split].
  split; [done|]. split; [done|].
  split; [apply printable_stringify_literal|].
  split; [apply stringify_final|].
  split; [by rewrite app_nil_r|].
  split; [|done].
  intros Hnone. unfold handed_on. by rewrite Hnone.
Qed.

(** C9, as the claim states it, fails when the blob object has no
    [blobId]: [store] succeeds and the receipt has no blob id, with the
    word [undefined] in its place in the URL. *)
Lemma C9_receipt_without_blobId :
  store output_without_blobId
  = Return {| blobId := None;
              objectId := Some (JStr (js "0xDEAD"));
              walrusURL := js "https://walruscan.com/testnet/blob/undefined";
              objectURL := js "https://walruscan.com/testnet/object/0xDEAD" |}
  /\ ~ populated {| blobId := None;
                    objectId := Some (JStr (js "0xDEAD"));
                    walrusURL := js "https://walruscan.com/testnet/blob/undefined";
                    objectURL := js "https://walruscan.com/testnet/object/0xDEAD" |}.
Proof.
  split; [by vm_compute|].
  intros [(s & Hs & _) _]. discriminate.
Qed.

Lemma explorer_url_nonempty path : explorer_base ++ path <> [].
Proof. done. Qed.

(** C9 (amended).  [store] either throws, and then there is no receipt,
    or returns a receipt: a truthy [newlyCreated] was found under
    [blobStoreResult] in the first element of the parsed array; [blobId]
    and [objectId] are what its [blobObject] holds under [blobId] and
    [id], as found; [walrusURL] and [objectURL] are non-empty strings,
    the explorer base followed by [/blob/] or [/object/] and the
    identifier as a string; all four fields are non-empty strings as soon
    as the two identifiers are. *)
Theorem C9_receipt_fields raw :
  (exists err, store raw = Throw err)
  \/ (exists r arr entry result created x,
        store raw = Return r
        /\ extractJson raw = Return arr
        /\ first arr = Return entry
        /\ get entry (js "blobStoreResult") = Return result
        /\ get result (js "newlyCreated") = Return created
        /\ to_boolean created = true
        /\ get created (js "blobObject") = Return x
        /\ get x (js "blobId") = Return (blobId r)
        /\ get x (js "id") = Return (objectId r)
        /\ walrusURL r = explorer_base ++ js "/blob/" ++ to_string (blobId r)
        /\ objectURL r = explorer_base ++ js "/object/" ++ to_string (objectId r)
        /\ walrusURL r <> []
        /\ objectURL r <> []
        /\ (nonempty_string (blobId r) -> nonempty_string (objectId r) ->
            populated r)).
Proof.
  destruct (store raw) as [r|err] eqn:Hstore; [right|by left; exists err].
  destruct (store_Return raw r Hstore) as (arr & Harr & Hparse).
  destruct (parseWalrus_Return arr r Hparse)
    as (entry & result & created & x & H1 & H2 & H3 & H4 & H5 & H6 & H7
          & Hw & Ho).
  exists r, arr, entry, result, created, x.
  assert (Hw' : walrusURL r <> []) by (rewrite Hw; apply explorer_url_nonempty).
  assert (Ho' : objectURL r <> []) by (rewrite Ho; apply explorer_url_nonempty).
  repeat split; try done.
Qed.

(** C10.  With no argument after the name of the script, the script
    starts no subprocess, writes nothing to the standard output or to the
    error stream, and ends with status 0. *)
Theorem C10_no_argument sys (argv : list jsstring) :
  (length argv <= 2)%nat ->
  main sys argv = []
  /\ spawned (main sys argv) = []
  /\ stdout_of (main sys argv) = []
  /\ stderr_of (main sys argv) = []
  /\ exit_status (main sys argv) = 0.
Proof.
  intros Hlen. unfold main.
  rewrite (lookup_ge_None_2 argv 2) by lia. by repeat split.
Qed.

(** C10 at the command line [node upload.js]. *)
Lemma C10_no_argument_witness :
  main (system_printing sample_output) [js "node"; js "upload.js"] = []
  /\ spawned (main (system_printing sample_output)
                [js "node"; js "upload.js"]) = []
  /\ stdout_of (main (system_printing sample_output)
                  [js "node"; js "upload.js"]) = []
  /\ stderr_of (main (system_printing sample_output)
                  [js "node"; js "upload.js"]) = []
  /\ exit_status (main (system_printing sample_output)
                    [js "node"; js "upload.js"]) = 0.
Proof.
  apply (C10_no_argument (system_printing sample_output)
           [js "node"; js "upload.js"]).
  simpl. lia.
Defined.

End Uploader.

(* ===================================================================== *)
(** * Part IX. The ledger: runs of transactions                           *)
(* ===================================================================== *)

Section LedgerRuns.
Import Oracle.

Lemma appended_to_cons ref c calls :
  appended_to ref (c :: calls)
  = (if decide (c.1 = ref) then [proof_of c.2] else []) ++ appended_to ref calls.
Proof. unfold appended_to. cbn [omap list_omap]. by destruct (decide _). Qed.

(** One call, seen from any table of the store. *)
Lemma call_anchor_audit_lookup shared ref a shared' :
  call_anchor_audit shared ref (arg_hash a) (arg_score a) (arg_time a)
  = Some shared' ->
  forall other,
    shared' !! other
    = (fun table => {| id := id table;
                       proofs := proofs table
                                   ++ (if decide (ref = other)
                                       then [proof_of a] else []) |})
        <$> shared !! other.
Proof.
  unfold call_anchor_audit. intros H other.
  destruct (shared !! ref) as [table|] eqn:Href; [|done].
  simpl in H. inversion H; subst; clear H.
  destruct (decide (ref = other)) as [->|Hne].
  - rewrite lookup_insert_eq, Href. reflexivity.
  - rewrite lookup_insert_ne by done.
    destruct (shared !! other) as [[i ps]|]; simpl; [|done].
    by rewrite app_nil_r.
Qed.

(** X1.  A run of [anchor_audit] calls, each on a table that exists,
    commits in full, and each table ends with its previous proofs followed
    by the proofs of the calls that named it, in the order of the run:
    calls on other tables, however interleaved, leave no trace in it.  No
    table appears or disappears. *)
Theorem X1_tables_are_independent
    (calls : list (UID * anchor_args)) (shared : gmap UID AuditTable) :
  (forall c, c ∈ calls -> is_Some (shared !! c.1)) ->
  exists shared',
    call_all shared calls = Some shared'
    /\ forall ref,
         shared' !! ref
         = (fun table => {| id := id table;
                            proofs := proofs table ++ appended_to ref calls |})
             <$> shared !! ref.
Proof.
  revert shared. induction calls as [|[r a] calls IH]; intros shared Hvalid.
  - exists shared. split; [done|]. intros ref.
    destruct (shared !! ref) as [[i ps]|]; simpl; [|done].
    by rewrite app_nil_r.
  - destruct (Hvalid (r, a)) as [table Htable]; [by left|].
    cbn [call_all].
    destruct (call_anchor_audit shared r (arg_hash a) (arg_score a) (arg_time a))
      as [shared1|] eqn:Hcall.
    2: { unfold call_anchor_audit in Hcall. simpl in Htable.
         by rewrite Htable in Hcall. }
    pose proof (call_anchor_audit_lookup _ _ _ _ Hcall) as Hone.
    destruct (IH shared1) as (shared' & Hrun & Hall).
    { intros c Hc. rewrite Hone.
      destruct (Hvalid c) as [t Ht]; [by right|]. rewrite Ht. by eexists. }
    exists shared'. split; [done|]. intros ref.
    rewrite Hall, Hone, appended_to_cons. cbn [fst snd].
    destruct (shared !! ref) as [[i ps]|]; simpl; [|done].
    by rewrite <- app_assoc.
Qed.

(** X1 on two tables and three calls that alternate between them. *)
Lemma X1_tables_are_independent_witness :
  exists shared',
    call_all two_tables alternating_calls = Some shared'
    /\ forall ref,
         shared' !! ref
         = (fun table => {| id := id table;
                            proofs := proofs table
                                        ++ appended_to ref alternating_calls |})
             <$> two_tables !! ref.
Proof.
  apply (X1_tables_are_independent alternating_calls two_tables).
  intros c Hc. unfold alternating_calls in Hc.
  repeat (apply elem_of_cons in Hc as [->|Hc]); [..|by apply elem_of_nil in Hc];
    vm_compute; eauto.
Defined.

(** X2.  [init_table] called twice in one transaction shares two tables
    under two different identifiers, both empty; every table shared before
    under another identifier is as it was, and the context has counted two
    objects. *)
Theorem X2_init_table_is_not_idempotent
    (ctx : TxContext) (shared : gmap UID AuditTable) :
  let first_id := (tx_hash ctx, ids_created ctx) in
  let second_id := (tx_hash ctx, ids_created ctx + 1) in
  let after := init_table_twice ctx shared in
  first_id <> second_id
  /\ after.2 !! first_id = Some {| id := first_id; proofs := [] |}
  /\ after.2 !! second_id = Some {| id := second_id; proofs := [] |}
  /\ (forall other, other <> first_id -> other <> second_id ->
        after.2 !! other = shared !! other)
  /\ ids_created after.1 = ids_created ctx + 2
  /\ tx_hash after.1 = tx_hash ctx.
Proof.
  intros first_id second_id after.
  assert (Hne : first_id <> second_id).
  { unfold first_id, second_id. intros [= H]. lia. }
  subst after. unfold init_table_twice, init_table, object_new. cbn.
  fold first_id. fold second_id.
  split; [done|]. split.
  { rewrite lookup_insert_ne by done. by rewrite lookup_insert_eq. }
  split; [by rewrite lookup_insert_eq|]. split.
  { intros other H1 H2. by rewrite !lookup_insert_ne. }
  split; [lia|done].
Qed.

Lemma args_of_proof_of a : args_of (proof_of a) = a.
Proof. by destruct a. Qed.

(** X3.  The table keeps the whole history: the arguments of the calls
    made since an earlier state of the table are read back from it, in
    order, so two different sequences of calls never leave the same
    table. *)
Theorem X3_history_is_recoverable (table : AuditTable) :
  (forall calls, anchored_since table (anchor_all table calls) = calls)
  /\ (forall calls1 calls2,
         anchor_all table calls1 = anchor_all table calls2 -> calls1 = calls2).
Proof.
  assert (Hback : forall calls,
             anchored_since table (anchor_all table calls) = calls).
  { intros calls. unfold anchored_since.
    rewrite anchor_all_proofs, drop_app_length, map_map.
    rewrite <- (map_id calls) at 2. apply map_ext. apply args_of_proof_of. }
  split; [done|].
  intros calls1 calls2 Heq.
  rewrite <- (Hback calls1), <- (Hback calls2). by rewrite Heq.
Qed.

End LedgerRuns.

(* ===================================================================== *)
(** * Part X. Sanitation and extraction, in full                          *)
(* ===================================================================== *)

Section ExtractionSpan.
Import Regex.

(** X4.  Removing the colour codes only deletes code units: what is left is
    the output with some units dropped, the others in their order.  When
    the output is made of texts without ESC and of colour codes, what is
    left is exactly the texts. *)
Theorem X4_sanitation_only_deletes :
  (forall output, remove_all color_code output `sublist_of` output)
  /\ (forall segs,
         Forall well_formed segs ->
         remove_all color_code (written segs) = visible segs).
Proof.
  split.
  - intros output. apply remove_from_sublist.
  - apply remove_all_written.
Qed.

(** X13.  Colour does not change the outcome: for output made of texts
    without ESC and of colour codes, wherever the codes stand (inside the
    array as well), [extractJson] and [store] answer as they do on the
    texts alone, receipt or error, message included. *)
Theorem X13_colour_does_not_matter (segs : list segment) :
  Forall well_formed segs ->
  extractJson (written segs) = extractJson (visible segs)
  /\ store (written segs) = store (visible segs).
Proof.
  intros Hsegs.
  assert (Hsame : extractJson (written segs) = extractJson (visible segs)).
  { unfold extractJson.
    rewrite remove_all_written by done.
    by rewrite (remove_plain_all (visible segs)) by by apply visible_plain. }
  split; [done|]. unfold store. by rewrite Hsame.
Qed.

(** X13 at a line in three colours. *)
Lemma X13_colour_does_not_matter_witness :
  extractJson (written colored_line) = extractJson (visible colored_line)
  /\ store (written colored_line) = store (visible colored_line).
Proof.
  apply (X13_colour_does_not_matter colored_line).
  unfold colored_line.
  apply Forall_cons_2; [exists [49]; by repeat constructor|].
  apply Forall_cons_2; [by apply plain_check|].
  apply Forall_cons_2; [exists [48; 59; 51; 50]; by repeat constructor|].
  apply Forall_cons_2; [by apply plain_check|].
  apply Forall_cons_2; [exists []; by repeat constructor|].
  apply Forall_nil_2.
Defined.

(** The search takes the leftmost start: the pattern matches at no earlier
    position. *)
Lemma search_leftmost r : forall s pre m post,
  search r s = Some (pre, m, post) ->
  forall a b, pre = a ++ b -> b <> [] ->
              match_here r (b ++ m ++ post) = None.
Proof.
  induction s as [|c s IH]; intros pre m post H a b Hpre Hb;
    rewrite search_unfold in H.
  - destruct (match_here r []) as [[m' rest']|]; [|done].
    inversion H; subst. by destruct a, b.
  - destruct (match_here r (c :: s)) as [[m' rest']|] eqn:Hm.
    { inversion H; subst. by destruct a, b. }
    destruct (search r s) as [[[pre' m'] post']|] eqn:Hs; [|done].
    injection H as <- <- <-.
    pose proof (search_sound r s _ _ _ Hs) as [Hsplit _].
    destruct a as [|x a]; simpl in Hpre.
    + subst b. simpl. by rewrite <- Hsplit.
    + injection Hpre as <- ->. by eapply IH.
Qed.

Lemma matches_app r1 : forall r2 m1 m2,
  matches r1 m1 -> matches r2 m2 -> matches (r1 ++ r2) (m1 ++ m2).
Proof.
  induction r1 as [|[cls|cls] r1 IH]; intros r2 m1 m2 H1 H2.
  - simpl in H1. by subst.
  - destruct H1 as (c & m' & -> & Hc & Hm'). simpl.
    exists c, (m' ++ m2). repeat split; [done|]. by apply IH.
  - destruct H1 as (w & m' & -> & Hw & Hm'). simpl.
    exists w, (m' ++ m2). rewrite <- app_assoc. repeat split; [done|].
    by apply IH.
Qed.

(** What is left after a match of [r1 ++ r2] is what is left after a match
    of [r2]. *)
Lemma match_here_tail r1 r2 : forall s m post,
  match_here (r1 ++ r2) s = Some (m, post) ->
  exists s' m2, match_here r2 s' = Some (m2, post).
Proof.
  induction r1 as [|[cls|cls] r1 IH]; intros s m post H.
  - by exists s, m.
  - destruct s as [|c s]; [done|]. simpl app in H. rewrite match_one in H.
    destruct (cls c); [|done].
    destruct (match_here (r1 ++ r2) s) as [[m' rest']|] eqn:Hm; [|done].
    inversion H; subst. by eapply IH.
  - simpl app in H. revert m H.
    induction s as [|c s IHs]; intros m H; rewrite match_star in H.
    + by eapply IH.
    + destruct (cls c); [|by eapply IH].
      destruct (match_here (Star cls :: r1 ++ r2) s) as [[m' rest']|] eqn:Hm.
      * inversion H; subst. by eapply IHs.
      * by eapply IH.
Qed.

(** After the match of [[\s\S]*] and a closer no closer is left. *)
Lemma no_closer_left : forall t m post,
  match_here (Star any :: closer) t = Some (m, post) ->
  ~ occurs closer post.
Proof.
  induction t as [|c t IH]; intros m post H; rewrite match_star in H.
  - done.
  - simpl any in H. cbv iota in H.
    destruct (match_here (Star any :: closer) t) as [[m' rest']|] eqn:Hm.
    + inversion H; subst. by eapply IH.
    + intros Hocc.
      apply match_here_sound in H as [Hsplit Hc].
      apply matches_delimiter in Hc as (w & -> & _).
      simpl in Hsplit. injection Hsplit as _ Ht.
      destruct Hocc as (pre & m2 & post2 & -> & Hm2).
      assert (Hlang : matches (Star any :: closer) (((w ++ [93]) ++ pre) ++ m2)).
      { exists ((w ++ [93]) ++ pre), m2. split; [done|]. split; [|done].
        apply Forall_forall. done. }
      pose proof (match_here_complete _ _ post2 Hlang) as Hsome.
      rewrite <- !app_assoc in Hsome. rewrite <- !app_assoc in Ht.
      rewrite <- Ht, Hm in Hsome. by destruct Hsome.
Qed.

Lemma matches_json_block m : matches json_block m <-> is_block m.
Proof.
  split.
  - intros (c1 & m1 & -> & Hc1 & w1 & m2 & -> & Hw1 & c2 & m3 & -> & Hc2
              & w & m4 & -> & _ & Hclose).
    apply N.eqb_eq in Hc1, Hc2. subst.
    apply (matches_delimiter 125 93) in Hclose as (w2 & -> & Hw2).
    by exists w1, w, w2.
  - intros (ws1 & mid & ws2 & -> & Hw1 & Hw2).
    replace (91 :: ws1 ++ 123 :: mid ++ 125 :: ws2 ++ [93])
      with ((91 :: ws1 ++ [123]) ++ mid ++ 125 :: ws2 ++ [93])
      by (simpl; by rewrite <- app_assoc).
    apply (matches_app opener (Star any :: closer)).
    + apply matches_delimiter. by exists ws1.
    + exists mid, (125 :: ws2 ++ [93]). repeat split.
      * apply Forall_forall. done.
      * apply (matches_delimiter 125 93). by exists ws2.
Qed.

(** X5.  The text [extractJson] hands to [JSON.parse] is the span from the
    first opener (opening bracket, white space, opening brace) to the last
    closer (closing brace, white space, closing bracket) of the sanitized
    output: the search answers [pre], [m], [post] exactly when the output
    is [pre ++ m ++ post], [m] is a block, no opener lies in [pre] and no
    closer lies in [post]. *)
Theorem X5_extraction_span (s pre m post : jsstring) :
  search json_block s = Some (pre, m, post)
  <-> s = pre ++ m ++ post
      /\ is_block m
      /\ ~ occurs opener pre
      /\ ~ occurs closer post.
Proof.
  split.
  - intros H.
    pose proof (search_sound _ _ _ _ _ H) as [Hsplit Hm].
    pose proof (proj1 (matches_json_block m) Hm) as Hblock.
    split; [done|]. split; [done|]. split.
    + intros (a & o & b & -> & Ho).
      assert (Hnone : match_here json_block ((o ++ b) ++ m ++ post) = None).
      { apply (search_leftmost json_block s (a ++ o ++ b) m post H a (o ++ b));
          [done|].
        destruct Ho as (c & o' & -> & _). done. }
      destruct Hblock as (ws1 & mid & ws2 & -> & Hw1 & Hw2).
      assert (Hlang : matches json_block
                        (o ++ (b ++ 91 :: ws1 ++ 123 :: mid)
                           ++ 125 :: ws2 ++ [93])).
      { apply (matches_app opener (Star any :: closer)); [done|].
        exists (b ++ 91 :: ws1 ++ 123 :: mid), (125 :: ws2 ++ [93]).
        repeat split.
        - apply Forall_forall. done.
        - apply (matches_delimiter 125 93). by exists ws2. }
      pose proof (match_here_complete _ _ post Hlang) as Hsome.
      replace ((o ++ (b ++ 91 :: ws1 ++ 123 :: mid) ++ 125 :: ws2 ++ [93])
                 ++ post)
        with ((o ++ b) ++ (91 :: ws1 ++ 123 :: mid ++ 125 :: ws2 ++ [93])
                ++ post) in Hsome.
      * rewrite Hnone in Hsome. by destruct Hsome.
      * simpl. repeat (rewrite <- ?app_assoc; simpl). reflexivity.
    + assert (Hhere : match_here json_block (m ++ post) = Some (m, post)).
      { clear Hblock Hm. revert pre H Hsplit.
        induction s as [|c s IH]; intros pre H Hsplit;
          rewrite search_unfold in H.
        - destruct (match_here json_block []) as [[m' rest']|] eqn:Hm';
            [|done].
          inversion H; subst. simpl in Hsplit. by rewrite <- Hsplit.
        - destruct (match_here json_block (c :: s)) as [[m' rest']|] eqn:Hm'.
          + inversion H; subst. simpl in Hsplit. by rewrite <- Hsplit.
          + destruct (search json_block s) as [[[pre' m'] post']|] eqn:Hs;
              [|done].
            inversion H; subst.
            apply (IH pre'); [done|].
            by apply search_sound in Hs as [? _]. }
      change json_block with (opener ++ Star any :: closer) in Hhere.
      apply match_here_tail in Hhere as (s' & m2 & Htail).
      by eapply no_closer_left.
  - intros (-> & Hblock & Hpre & Hpost). by apply search_block.
Qed.

End ExtractionSpan.

(* ===================================================================== *)
(** * Part XI. What [extractJson] returns                                 *)
(* ===================================================================== *)

Section ParsedShape.
Import Regex JSON.

Lemma space_cases c :
  space c = true ->
  c = 9 \/ c = 10 \/ c = 11 \/ c = 12 \/ c = 13 \/ c = 32 \/ c = 160
  \/ c = 5760 \/ (8192 <= c <= 8202) \/ c = 8232 \/ c = 8233 \/ c = 8239
  \/ c = 8287 \/ c = 12288 \/ c = 65279.
Proof.
  unfold space. rewrite !orb_true_iff, andb_true_iff, !N.eqb_eq, !N.leb_le.
  tauto.
Qed.

Lemma skip_ws_head s c t : skip_ws s = c :: t -> ws c = false.
Proof.
  induction s as [|x s IH]; [done|]. cbn [skip_ws].
  destruct (ws x) eqn:Hx; [done|]. by intros [= <- <-].
Qed.

(** After white space of the pattern, JSON white space leaves the brace or
    a space that JSON does not know. *)
Lemma skip_ws_spaces w t :
  Forall (fun c => space c = true) w ->
  skip_ws (w ++ 123 :: t) = 123 :: t
  \/ exists c t', skip_ws (w ++ 123 :: t) = c :: t' /\ space c = true.
Proof.
  induction 1 as [|x w Hx Hw IH]; [by left|].
  simpl app. cbn [skip_ws]. destruct (ws x); [done|].
  right. by exists x, (w ++ 123 :: t).
Qed.

(** No JSON value starts with a space that JSON does not know. *)
Lemma parse_value_space n s c t v rest :
  skip_ws s = c :: t -> space c = true ->
  parse_value n s <> Parsed v rest.
Proof.
  intros Hs Hc. destruct n as [|n]; [done|]. cbn [parse_value]. rewrite Hs.
  apply space_cases in Hc.
  repeat match goal with
         | |- context [if c =? ?k then _ else _] =>
             destruct (N.eqb_spec c k); [lia|]
         end.
  unfold parse_number, expect.
  destruct (N.eqb_spec c 45); [lia|].
  replace (is_digit c) with false; [done|].
  unfold is_digit. symmetry. apply andb_false_iff.
  destruct (N.leb_spec 48 c); [right|by left]. apply N.leb_gt. lia.
Qed.

Lemma parse_members_object : forall n s acc v rest,
  parse_members n s acc = Parsed v rest -> exists props, v = JObj props.
Proof.
  induction n as [|n IH]; intros s acc v rest H; [done|].
  cbn [parse_members] in H.
  repeat case_match; simplify_eq; eauto.
Qed.

Lemma parse_value_object n s t v rest :
  skip_ws s = 123 :: t ->
  parse_value n s = Parsed v rest -> exists props, v = JObj props.
Proof.
  intros Hs H. destruct n as [|n]; [done|]. cbn [parse_value] in H.
  rewrite Hs in H. change (123 =? 123) with true in H. cbv iota in H.
  destruct (expect 125 (skip_ws t)); [|by eapply parse_members_object].
  inversion H. eauto.
Qed.

(** The array that [parse_elements] returns starts with what it was given
    and the value it read first. *)
Lemma parse_elements_first : forall n s acc v rest,
  parse_elements n s acc = Parsed v rest ->
  exists k x r more,
    parse_value k s = Parsed x r /\ v = JArr (acc ++ x :: more).
Proof.
  induction n as [|n IH]; intros s acc v rest H; [done|].
  cbn [parse_elements] in H.
  destruct (parse_value n s) as [x r| |] eqn:Hx; [|done..].
  destruct (expect 44 (skip_ws r)) as [r'|].
  - apply IH in H as (k & y & r2 & more & _ & ->).
    exists n, x, r, (y :: more). split; [done|]. by rewrite <- app_assoc.
  - destruct (expect 93 (skip_ws r)) as [r'|]; [|done].
    inversion H; subst. by exists n, x, r, [].
Qed.

(** Whenever a block parses, it is an array that starts with an object. *)
Lemma parse_block block v :
  is_block block -> parse block = Some v ->
  exists entry rest, v = JArr (JObj entry :: rest).
Proof.
  intros (ws1 & mid & ws2 & -> & Hw1 & _) H. unfold parse in H.
  destruct (parse_value _ _) as [v' r| |] eqn:Hv; [|done..].
  assert (v' = v) as -> by (destruct (skip_ws r); congruence). clear H.
  match type of Hv with
  | parse_value ?f _ = _ => destruct f as [|n]; [done|]
  end.
  cbn [parse_value skip_ws] in Hv.
  change (ws 91) with false in Hv. cbv iota in Hv.
  change (91 =? 123) with false in Hv. change (91 =? 91) with true in Hv.
  cbv iota in Hv.
  assert (Hno : expect 93 (skip_ws (ws1 ++ 123 :: mid ++ 125 :: ws2 ++ [93]))
                = None).
  { destruct (skip_ws_spaces ws1 (mid ++ 125 :: ws2 ++ [93]) Hw1)
      as [->|(c & t' & -> & Hc)]; [done|].
    unfold expect. apply space_cases in Hc.
    destruct (N.eqb_spec c 93); [lia|done]. }
  rewrite Hno in Hv.
  apply parse_elements_first in Hv as (k & x & r' & more & Hx & ->).
  destruct (skip_ws_spaces ws1 (mid ++ 125 :: ws2 ++ [93]) Hw1)
    as [Hs|(c & t' & Hs & Hc)].
  - destruct (parse_value_object _ _ _ _ _ Hs Hx) as [props ->].
    by exists props, more.
  - by destruct (parse_value_space _ _ _ _ _ _ Hs Hc Hx).
Qed.

(** X6.  Whatever [extractJson] returns is an array whose first element is
    an object: the pattern asks for an opening bracket and an opening
    brace, so [jsonArray[0]] in [parseWalrus] is never undefined and the
    read of [entry.blobStoreResult] never throws. *)
Theorem X6_entry_is_an_object (raw : jsstring) (arr : json) :
  extractJson raw = Return arr ->
  exists entry rest,
    arr = JArr (JObj entry :: rest)
    /\ first arr = Return (Some (JObj entry))
    /\ get (Some (JObj entry)) (js "blobStoreResult")
       = Return (obj_get entry (js "blobStoreResult")).
Proof.
  unfold extractJson. intros H.
  destruct (search json_block _) as [[[pre block] post]|] eqn:Hs; [|done].
  destruct (parse block) as [v|] eqn:Hp; [|done].
  inversion H; subst; clear H.
  apply search_sound in Hs as [_ Hm].
  apply matches_json_block in Hm.
  destruct (parse_block block arr Hm Hp) as (entry & rest & ->).
  by exists entry, rest.
Qed.

(** X6 at the one-line array among log lines. *)
Lemma X6_entry_is_an_object_witness :
  exists entry rest,
    JArr [JObj [(js "blobStoreResult",
            JObj [(js "newlyCreated",
              JObj [(js "blobObject",
                JObj [(js "id", JStr (js "0xDEAD"));
                      (js "blobId", JStr (js "b64:ABC123"))])])])]]
    = JArr (JObj entry :: rest)
    /\ first (JArr [JObj [(js "blobStoreResult",
                JObj [(js "newlyCreated",
                  JObj [(js "blobObject",
                    JObj [(js "id", JStr (js "0xDEAD"));
                          (js "blobId", JStr (js "b64:ABC123"))])])])]])
       = Return (Some (JObj entry))
    /\ get (Some (JObj entry)) (js "blobStoreResult")
       = Return (obj_get entry (js "blobStoreResult")).
Proof.
  apply (X6_entry_is_an_object output_with_logs).
  vm_compute. reflexivity.
Defined.

End ParsedShape.

(* ===================================================================== *)
(** * Part XII. [JSON.parse] reads back what [JSON.stringify] wrote       *)
(* ===================================================================== *)

Section RoundTrip.
Import JSON.

Lemma hex_round_trip n : n < 16 -> hex_value (hex_digit n) = Some n.
Proof.
  intros Hn. unfold hex_value, hex_digit, is_digit.
  destruct (N.ltb_spec n 10).
  - replace (48 <=? 48 + n) with true by (symmetry; apply N.leb_le; lia).
    replace (48 + n <=? 57) with true by (symmetry; apply N.leb_le; lia).
    cbn [andb]. f_equal. lia.
  - replace (87 + n <=? 57) with false by (symmetry; apply N.leb_gt; lia).
    rewrite andb_false_r.
    replace (97 <=? 87 + n) with true by (symmetry; apply N.leb_le; lia).
    replace (87 + n <=? 102) with true by (symmetry; apply N.leb_le; lia).
    cbn [andb]. f_equal. lia.
Qed.

Lemma hex_digits_of c :
  c < 65536 ->
  c / 4096 < 16 /\ (c / 256) mod 16 < 16 /\ (c / 16) mod 16 < 16
  /\ c mod 16 < 16
  /\ 4096 * (c / 4096) + 256 * ((c / 256) mod 16)
     + 16 * ((c / 16) mod 16) + c mod 16 = c.
Proof.
  intros Hc.
  pose proof (N.div_mod c 16 ltac:(discriminate)) as H1.
  pose proof (N.div_mod (c / 16) 16 ltac:(discriminate)) as H2.
  pose proof (N.div_mod (c / 16 / 16) 16 ltac:(discriminate)) as H3.
  pose proof (N.mod_upper_bound c 16 ltac:(discriminate)).
  pose proof (N.mod_upper_bound (c / 16) 16 ltac:(discriminate)).
  pose proof (N.mod_upper_bound (c / 16 / 16) 16 ltac:(discriminate)).
  assert (E1 : c / 16 / 16 = c / 256) by (rewrite N.Div0.div_div; reflexivity).
  assert (E2 : c / 256 / 16 = c / 4096) by (rewrite N.Div0.div_div; reflexivity).
  rewrite E1 in *. rewrite E2 in *.
  assert (c / 4096 < 16) by (apply N.Div0.div_lt_upper_bound; lia).
  lia.
Qed.

Lemma parse_unicode_escape c s :
  c < 65536 ->
  parse_chars (unicode_escape c ++ s)
  = match parse_chars s with
    | Some (str, rest) => Some (c :: str, rest)
    | None => None
    end.
Proof.
  intros Hc. destruct (hex_digits_of c Hc) as (H1 & H2 & H3 & H4 & Hsum).
  unfold unicode_escape. simpl app. cbn [parse_chars].
  change (92 =? 34) with false. change (92 =? 92) with true.
  change (117 =? 117) with true. cbv iota.
  rewrite !hex_round_trip by done. rewrite Hsum. reflexivity.
Qed.

Lemma parse_letter_escape e u s :
  unescape e = Some u -> e <> 117 ->
  parse_chars (92 :: e :: s)
  = match parse_chars s with
    | Some (str, rest) => Some (u :: str, rest)
    | None => None
    end.
Proof.
  intros Hu He. cbn [parse_chars].
  change (92 =? 34) with false. change (92 =? 92) with true. cbv iota.
  destruct (N.eqb_spec e 117); [done|]. by rewrite Hu.
Qed.

Lemma parse_plain_unit c s :
  c <> 34 -> c <> 92 -> 32 <= c ->
  parse_chars (c :: s)
  = match parse_chars s with
    | Some (str, rest) => Some (c :: str, rest)
    | None => None
    end.
Proof.
  intros H1 H2 H3. cbn [parse_chars].
  destruct (N.eqb_spec c 34); [done|]. destruct (N.eqb_spec c 92); [done|].
  destruct (N.ltb_spec c 32); [lia|done].
Qed.

(** The characters of a quoted string are read back as the string. *)
Lemma parse_quote_units : forall n s rest,
  (length s <= n)%nat ->
  parse_chars (quote_units s ++ 34 :: rest) = Some (s, rest).
Proof.
  induction n as [|n IH]; intros s rest Hn.
  { destruct s; [reflexivity|simpl in Hn; lia]. }
  destruct s as [|c s']; [reflexivity|]. simpl in Hn.
  assert (Hs' : parse_chars (quote_units s' ++ 34 :: rest) = Some (s', rest))
    by (apply IH; lia).
  cbn [quote_units].
  destruct (N.eqb_spec c 8) as [->|?].
  { simpl app. by rewrite (parse_letter_escape 98 8), Hs'. }
  destruct (N.eqb_spec c 9) as [->|?].
  { simpl app. by rewrite (parse_letter_escape 116 9), Hs'. }
  destruct (N.eqb_spec c 10) as [->|?].
  { simpl app. by rewrite (parse_letter_escape 110 10), Hs'. }
  destruct (N.eqb_spec c 12) as [->|?].
  { simpl app. by rewrite (parse_letter_escape 102 12), Hs'. }
  destruct (N.eqb_spec c 13) as [->|?].
  { simpl app. by rewrite (parse_letter_escape 114 13), Hs'. }
  destruct (N.eqb_spec c 34) as [->|?].
  { simpl app. by rewrite (parse_letter_escape 34 34), Hs'. }
  destruct (N.eqb_spec c 92) as [->|?].
  { simpl app. by rewrite (parse_letter_escape 92 92), Hs'. }
  destruct (N.ltb_spec c 32).
  { rewrite <- app_assoc, parse_unicode_escape by lia. by rewrite Hs'. }
  destruct (lead_surrogate c) eqn:Hlead.
  { assert (c < 65536).
    { unfold lead_surrogate in Hlead.
      apply andb_prop in Hlead as [_ Hlead]. apply N.leb_le in Hlead. lia. }
    destruct s' as [|d s''].
    - rewrite parse_unicode_escape by done. reflexivity.
    - destruct (trail_surrogate d) eqn:Htrail.
      + unfold trail_surrogate in Htrail.
        apply andb_prop in Htrail as [Htrail _]. apply N.leb_le in Htrail.
        simpl app.
        rewrite (parse_plain_unit c), (parse_plain_unit d) by lia.
        rewrite IH; [done|]. simpl in Hn. lia.
      + rewrite <- app_assoc, parse_unicode_escape by done. by rewrite Hs'. }
  destruct (trail_surrogate c) eqn:Htrail.
  { assert (c < 65536).
    { unfold trail_surrogate in Htrail.
      apply andb_prop in Htrail as [_ Htrail]. apply N.leb_le in Htrail. lia. }
    rewrite <- app_assoc, parse_unicode_escape by done. by rewrite Hs'. }
  simpl app. rewrite parse_plain_unit by done. by rewrite Hs'.
Qed.

(** A quoted string, as a value. *)
Lemma parse_value_quote n s rest :
  parse_value (S n) (quote s ++ rest) = Parsed (JStr s) rest.
Proof.
  unfold quote. cbn [parse_value app skip_ws].
  change (ws 34) with false. cbv iota.
  change (34 =? 123) with false. change (34 =? 91) with false.
  change (34 =? 34) with true. cbv iota.
  rewrite <- app_assoc. simpl app.
  by rewrite (parse_quote_units (length s)).
Qed.

Lemma stringify_text_fields fields :
  stringify_literal (text_fields fields)
  = 123 :: join_comma (map member_text fields) ++ [125].
Proof.
  unfold stringify_literal, text_fields.
  assert (Hparts : omap (fun '(k, v) =>
                           match v with
                           | Some j => Some (quote k ++ 58 :: JSON_stringify j)
                           | None => None
                           end)
                     (map (fun kv : jsstring * jsstring =>
                             (kv.1, Some (JStr kv.2))) fields)
                   = map member_text fields).
  { induction fields as [|[k v] fields IH]; [done|].
    cbn [map omap list_omap fst snd]. by rewrite IH. }
  by rewrite Hparts.
Qed.

(** The members of an object of strings, read back one by one. *)
Lemma parse_members_text : forall fields n acc rest,
  fields <> [] -> (length fields < n)%nat ->
  parse_members n (join_comma (map member_text fields) ++ 125 :: rest) acc
  = Parsed (JObj (foldl (fun a kv => obj_set a kv.1 (JStr kv.2)) acc fields))
      rest.
Proof.
  induction fields as [|[k v] fields IH]; intros n acc rest Hne Hn; [done|].
  destruct n as [|[|n]]; [simpl in Hn; lia..|].
  assert (Hmember : forall tail,
             parse_members (S (S n)) (member_text (k, v) ++ tail) acc
             = match expect 44 (skip_ws tail) with
               | Some r4 => parse_members (S n) r4 (obj_set acc k (JStr v))
               | None =>
                   match expect 125 (skip_ws tail) with
                   | Some r4 => Parsed (JObj (obj_set acc k (JStr v))) r4
                   | None => Malformed
                   end
               end).
  { intros tail.
    replace (member_text (k, v) ++ tail)
      with (34 :: quote_units k ++ 34 :: 58 :: (quote v ++ tail))
      by (unfold member_text, quote; cbn [fst snd];
          repeat (rewrite <- ?app_assoc; simpl app); reflexivity).
    cbn [parse_members skip_ws]. change (ws 34) with false. cbv iota.
    cbn [expect]. change (34 =? 34) with true. cbv iota.
    rewrite (parse_quote_units (length k)) by done.
    cbn [skip_ws]. change (ws 58) with false. cbv iota.
    cbn [expect]. change (58 =? 58) with true. cbv iota.
    by rewrite parse_value_quote. }
  destruct fields as [|kv' fields].
  - cbn [map join_comma foldl]. rewrite Hmember.
    cbn [skip_ws]. change (ws 125) with false. cbv iota. reflexivity.
  - change (join_comma (map member_text ((k, v) :: kv' :: fields)))
      with (member_text (k, v)
              ++ 44 :: join_comma (map member_text (kv' :: fields))).
    rewrite <- app_assoc. rewrite Hmember.
    simpl app. cbn [skip_ws]. change (ws 44) with false. cbv iota.
    cbn [expect]. change (44 =? 44) with true. cbv iota.
    rewrite IH; [done|done|]. simpl in Hn |- *. lia.
Qed.

Lemma member_text_length kv : (1 <= length (member_text kv))%nat.
Proof. unfold member_text, quote. simpl. lia. Qed.

Lemma join_comma_length parts :
  Forall (fun p => 1 <= length p)%nat parts ->
  (length parts <= length (join_comma parts))%nat.
Proof.
  induction 1 as [|x parts Hx Hparts IH]; [done|].
  destruct parts as [|y parts]; [simpl; lia|].
  change (join_comma (x :: y :: parts))
    with (x ++ 44 :: join_comma (y :: parts)).
  rewrite length_app. simpl in *. lia.
Qed.

(** An object literal of strings, written by [JSON.stringify] and read by
    [JSON.parse]. *)
Lemma parse_stringify_text fields :
  parse (stringify_literal (text_fields fields)) = Some (JObj (object_of fields)).
Proof.
  rewrite stringify_text_fields. unfold parse.
  match goal with
  | |- context [parse_value ?f _] => remember f as fuel eqn:Hfuel
  end.
  destruct fuel as [|n]; [lia|].
  cbn [parse_value skip_ws]. change (ws 123) with false. cbv iota.
  change (123 =? 123) with true. cbv iota.
  destruct fields as [|kv fields].
  - reflexivity.
  - assert (Hskip : skip_ws (join_comma (map member_text (kv :: fields)) ++ [125])
                    = join_comma (map member_text (kv :: fields)) ++ [125]).
    { destruct fields; reflexivity. }
    rewrite Hskip.
    assert (Hexpect : expect 125 (join_comma (map member_text (kv :: fields))
                                    ++ [125]) = None).
    { destruct fields; reflexivity. }
    rewrite Hexpect, parse_members_text; [done|done|].
    assert (length (map member_text (kv :: fields))
            <= length (join_comma (map member_text (kv :: fields))))%nat.
    { apply join_comma_length, Forall_forall. intros p Hp.
      apply list_elem_of_fmap in Hp as (kv' & -> & _).
      apply member_text_length. }
    rewrite length_map in *. cbn [length] in Hfuel.
    rewrite length_app in Hfuel. simpl in *. lia.
Qed.

(** X7.  The line [upload] prints for a receipt whose two identifiers are
    strings is valid JSON: [JSON.parse] reads it back as an object with
    the four fields [blobId], [objectId], [walrusURL], [objectURL] holding
    the strings of the receipt, whatever code units these contain
    (quotation marks, line breaks, control characters, lone surrogates). *)
Theorem X7_printed_receipt_parses (r : receipt) (b o : jsstring) :
  blobId r = Some (JStr b) ->
  objectId r = Some (JStr o) ->
  parse (stringify_literal (final_fields r))
  = Some (JObj [(js "blobId", JStr b); (js "objectId", JStr o);
                (js "walrusURL", JStr (walrusURL r));
                (js "objectURL", JStr (objectURL r))]).
Proof.
  intros Hb Ho.
  change (final_fields r)
    with [(js "blobId", blobId r); (js "objectId", objectId r);
          (js "walrusURL", Some (JStr (walrusURL r)));
          (js "objectURL", Some (JStr (objectURL r)))].
  rewrite Hb, Ho.
  change [(js "blobId", Some (JStr b)); (js "objectId", Some (JStr o));
          (js "walrusURL", Some (JStr (walrusURL r)));
          (js "objectURL", Some (JStr (objectURL r)))]
    with (text_fields [(js "blobId", b); (js "objectId", o);
                       (js "walrusURL", walrusURL r);
                       (js "objectURL", objectURL r)]).
  rewrite parse_stringify_text. reflexivity.
Qed.

(** X7 at a receipt whose blob id has a quotation mark, a line feed and a
    lone surrogate. *)
Lemma X7_printed_receipt_parses_witness :
  parse (stringify_literal
           (final_fields {| blobId := Some (JStr [34; 10; 55357; 98]);
                            objectId := Some (JStr (js "0xDEAD"));
                            walrusURL := js "https://walruscan.com/testnet/blob/x";
                            objectURL := js "https://walruscan.com/testnet/object/0xDEAD" |}))
  = Some (JObj [(js "blobId", JStr [34; 10; 55357; 98]);
                (js "objectId", JStr (js "0xDEAD"));
                (js "walrusURL", JStr (js "https://walruscan.com/testnet/blob/x"));
                (js "objectURL", JStr (js "https://walruscan.com/testnet/object/0xDEAD"))]).
Proof.
  apply (X7_printed_receipt_parses
           {| blobId := Some (JStr [34; 10; 55357; 98]);
              objectId := Some (JStr (js "0xDEAD"));
              walrusURL := js "https://walruscan.com/testnet/blob/x";
              objectURL := js "https://walruscan.com/testnet/object/0xDEAD" |});
    reflexivity.
Defined.

End RoundTrip.

(* ===================================================================== *)
(** * Part XIII. The failures of [parseWalrus] and the guard of the script *)
(* ===================================================================== *)

Section Failures.

Lemma get_nullish v key : nullish v -> get v key = Throw TypeError.
Proof. by intros [-> | ->]. Qed.

Lemma get_not_nullish v key :
  ~ nullish v -> exists x, get v key = Return x.
Proof.
  unfold nullish. destruct v as [[| | | | |]|]; simpl; eauto; naive_solver.
Qed.

Lemma nullish_or_not v : nullish v \/ ~ nullish v.
Proof.
  unfold nullish.
  destruct v as [[| | | | |]|];
    first [ by left; left | by left; right
          | right; intros [?|?]; discriminate ].
Qed.

Lemma get_Return_not_nullish v key x : get v key = Return x -> ~ nullish v.
Proof. intros H [-> | ->]; done. Qed.

Lemma truthy_not_nullish v : to_boolean v = true -> ~ nullish v.
Proof. intros H [-> | ->]; done. Qed.

(** [parseWalrus] on an array that starts with an object, decision by
    decision. *)
Lemma parseWalrus_steps entry rest :
  parseWalrus (JArr (JObj entry :: rest))
  = match get (obj_get entry (js "blobStoreResult")) (js "newlyCreated") with
    | Throw e => Throw e
    | Return created =>
        if to_boolean created then
          match get created (js "blobObject") with
          | Throw e => Throw e
          | Return x =>
              match get x (js "blobId"), get x (js "id") with
              | Return b, Return o =>
                  match ToString b, ToString o with
                  | Return blob_text, Return object_text =>
                      Return {| blobId := b; objectId := o;
                                walrusURL := explorer_base ++ js "/blob/"
                                               ++ blob_text;
                                objectURL := explorer_base ++ js "/object/"
                                               ++ object_text |}
                  | Throw e, _ => Throw e
                  | _, Throw e => Throw e
                  end
              | Throw e, _ => Throw e
              | _, Throw e => Throw e
              end
          end
        else Throw (Error (unsupported_message
                             (obj_get entry (js "blobStoreResult"))))
    end.
Proof.
  unfold parseWalrus. cbn [first head]. rewrite bind_Return. cbn [get].
  rewrite bind_Return.
  destruct (get (obj_get entry (js "blobStoreResult")) (js "newlyCreated"))
    as [created|e]; [|done].
  rewrite bind_Return. destruct (to_boolean created); [|done].
  destruct (get created (js "blobObject")) as [x|e]; [|done].
  rewrite bind_Return.
  destruct (get x (js "blobId")) as [b|e]; [|done]. rewrite bind_Return.
  destruct (get x (js "id")) as [o|e]; [|done]. rewrite bind_Return.
  destruct (ToString b) as [blob_text|e]; [|done]. rewrite bind_Return.
  by destruct (ToString o) as [object_text|e].
Qed.

(** [ToString] throws nothing but a [TypeError]. *)
Lemma ToString_Throw v e : ToString v = Throw e -> e = TypeError.
Proof.
  destruct v as [j|]; cbn [ToString]; [|done].
  destruct (convertible j); congruence.
Qed.

(** An object with a [toString] of its own has no string. *)
Lemma ToString_own_toString props :
  obj_get props (js "toString") <> None ->
  ToString (Some (JObj props)) = Throw TypeError.
Proof.
  intros Hown. cbn [ToString convertible].
  by destruct (obj_get props (js "toString")).
Qed.

(** X8.  On an array that starts with an object, [parseWalrus] throws a
    [TypeError] when [blobStoreResult] is missing or null; when
    [newlyCreated] is truthy (an object, but also [true], a number, a
    string) and has no [blobObject] or a null one; and when the [blobId]
    of the blob object, or its [id] next to a primitive [blobId], is an
    object with a [toString] of its own, which the URL template cannot
    make a string.  A [TypeError] has no other cause than these reads and
    conversions.  Its own error [parseWalrus] throws only when
    [blobStoreResult] is there and [newlyCreated] is missing or falsy, the
    message then quotes the result, and in that case no receipt is
    returned. *)
Theorem X8_failures_of_parseWalrus
    (entry : list (jsstring * json)) (rest : list json) :
  let result := obj_get entry (js "blobStoreResult") in
  let arr := JArr (JObj entry :: rest) in
  (nullish result -> parseWalrus arr = Throw TypeError)
  /\ (forall created x,
         get result (js "newlyCreated") = Return created ->
         to_boolean created = true ->
         get created (js "blobObject") = Return x ->
         (nullish x -> parseWalrus arr = Throw TypeError)
         /\ (forall props,
                get x (js "blobId") = Return (Some (JObj props)) ->
                obj_get props (js "toString") <> None ->
                parseWalrus arr = Throw TypeError)
         /\ (forall b props,
                get x (js "blobId") = Return b ->
                primitive b ->
                get x (js "id") = Return (Some (JObj props)) ->
                obj_get props (js "toString") <> None ->
                parseWalrus arr = Throw TypeError))
  /\ (parseWalrus arr = Throw TypeError ->
      nullish result
      \/ exists created x,
           get result (js "newlyCreated") = Return created
           /\ to_boolean created = true
           /\ get created (js "blobObject") = Return x
           /\ (nullish x
               \/ (exists b, get x (js "blobId") = Return b
                             /\ ToString b = Throw TypeError)
               \/ (exists o, get x (js "id") = Return o
                             /\ ToString o = Throw TypeError)))
  /\ (forall message,
         parseWalrus arr = Throw (Error message) ->
         (exists created,
             get result (js "newlyCreated") = Return created
             /\ to_boolean created = false)
         /\ message = unsupported_message result)
  /\ ((exists created,
          get result (js "newlyCreated") = Return created
          /\ to_boolean created = false) ->
      forall r, parseWalrus arr <> Return r).
Proof.
  intros result arr. subst arr. rewrite parseWalrus_steps. fold result.
  split; [|split; [|split; [|split]]].
  - intros Hn. by rewrite (get_nullish _ _ Hn).
  - intros created x -> -> ->. split; [|split].
    + intros Hn. by rewrite !(get_nullish _ _ Hn).
    + intros props Hb Hown.
      destruct (get_not_nullish x (js "id")
                  (get_Return_not_nullish _ _ _ Hb)) as [o ->].
      by rewrite Hb, (ToString_own_toString props Hown).
    + intros b props -> Hb -> Hown.
      rewrite (ToString_primitive b Hb).
      by rewrite (ToString_own_toString props Hown).
  - destruct (nullish_or_not result) as [Hn|Hn]; [by left|].
    destruct (get_not_nullish result (js "newlyCreated") Hn)
      as [created Hcreated].
    rewrite Hcreated.
    destruct (to_boolean created) eqn:Htruthy; [|done].
    destruct (get_not_nullish created (js "blobObject")
                (truthy_not_nullish _ Htruthy)) as [x Hblob].
    rewrite Hblob.
    intros Hthrow. right. exists created, x.
    split; [done|]. split; [done|]. split; [done|].
    destruct (nullish_or_not x) as [Hx|Hx]; [by left|right].
    destruct (get_not_nullish x (js "blobId") Hx) as [b Hb].
    destruct (get_not_nullish x (js "id") Hx) as [o Ho].
    rewrite Hb, Ho in Hthrow.
    destruct (ToString b) as [blob_text|e] eqn:Eb.
    + destruct (ToString o) as [object_text|e] eqn:Eo; [done|].
      right. exists o. split; [done|].
      by rewrite Eo, (ToString_Throw _ _ Eo).
    + left. exists b. split; [done|].
      by rewrite Eb, (ToString_Throw _ _ Eb).
  - intros message Hthrow.
    destruct (get result (js "newlyCreated")) as [created|e] eqn:Hcreated.
    2: { destruct (nullish_or_not result) as [Hn|Hn].
         - rewrite (get_nullish _ _ Hn) in Hcreated. congruence.
         - apply (get_not_nullish _ (js "newlyCreated")) in Hn as [c Hc].
           congruence. }
    destruct (to_boolean created) eqn:Htruthy.
    2: { injection Hthrow as <-. split; [by exists created|done]. }
    exfalso.
    destruct (get created (js "blobObject")) as [x|e] eqn:Hx.
    2: { destruct (get_not_nullish created (js "blobObject")
                     (truthy_not_nullish _ Htruthy)) as [x' Hx'].
         congruence. }
    destruct (nullish_or_not x) as [Hn|Hn].
    { rewrite !(get_nullish _ _ Hn) in Hthrow. congruence. }
    destruct (get_not_nullish x (js "blobId") Hn) as [b Hb].
    destruct (get_not_nullish x (js "id") Hn) as [o Ho].
    rewrite Hb, Ho in Hthrow.
    destruct (ToString b) as [blob_text|e] eqn:Eb.
    + destruct (ToString o) as [object_text|e] eqn:Eo; [done|].
      apply ToString_Throw in Eo. congruence.
    + apply ToString_Throw in Eb. congruence.
  - intros (created & -> & ->). done.
Qed.

(** X9.  The guard of the script takes an empty argument for no argument:
    the script then does nothing at all.  With a non-empty argument it
    runs [upload] on it, whatever follows on the command line, and starts
    exactly one subprocess, [walrus store] on the resolved path with
    [--epochs 2 --json]. *)
Theorem X9_argument_guard (sys : system) :
  (forall argv,
      main sys argv = [] <-> argv !! 2%nat = None \/ argv !! 2%nat = Some [])
  /\ (forall node script path more,
         path <> [] ->
         main sys (node :: script :: path :: more) = upload sys path
         /\ spawned (main sys (node :: script :: path :: more))
            = [js "walrus store " ++ path_resolve sys path
                 ++ js " --epochs 2 --json"]).
Proof.
  split.
  - intros argv. unfold main.
    destruct (argv !! 2%nat) as [[|c arg]|]; cbn [to_boolean].
    + split; [by right|done].
    + split; [done|]. by intros [|].
    + split; [by left|done].
  - intros node script path more Hpath. unfold main.
    change ((node :: script :: path :: more) !! 2%nat) with (Some path).
    destruct path as [|c path]; [done|]. cbn [to_boolean].
    split; [done|]. unfold upload, spawned.
    cbn [omap list_omap]. rewrite omap_app.
    fold (spawned (handed_on (execSync sys
            (js "walrus store " ++ path_resolve sys (c :: path)
               ++ js " --epochs 2 --json")))).
    rewrite handed_on_spawned.
    destruct (child_stdout _) as [raw|]; [|done].
    by destruct (store raw).
Qed.

End Failures.

(* ===================================================================== *)
(** * Part XIV. The upload section of the dashboard                       *)
(* ===================================================================== *)

Section Dashboard.

Lemma js_or_Return a b :
  Return a <||> b = if to_boolean a then Return a else b.
Proof. reflexivity. Qed.

Lemma js_and_Return a b :
  Return a <&&> b = if to_boolean a then b else Return a.
Proof. reflexivity. Qed.

Lemma returns_or a b : returns a -> returns b -> returns (a <||> b).
Proof.
  intros [va ->] Hb. rewrite js_or_Return.
  destruct (to_boolean va); [by exists va|done].
Qed.

Lemma returns_and a b :
  returns a ->
  (forall va, a = Return va -> to_boolean va = true -> returns b) ->
  returns (a <&&> b).
Proof.
  intros [va ->] Hb. rewrite js_and_Return.
  destruct (to_boolean va) eqn:Hva; [by eapply Hb|by exists va].
Qed.

Lemma or_null a : returns a -> truthy_or_null (a <||> Return null).
Proof.
  intros [va ->]. rewrite js_or_Return.
  destruct (to_boolean va) eqn:Hva.
  - exists va. by split; [|left].
  - exists null. by split; [|right].
Qed.

Lemma returns_get w key : ~ nullish w -> returns (get w key).
Proof. intros Hw. by apply get_not_nullish. Qed.

(** The group [w.raw_response && (w.raw_response.a || w.raw_response.b)]. *)
Lemma returns_raw_response w (inner : outcome jsval) :
  ~ nullish w ->
  (forall rr, get w (js "raw_response") = Return rr ->
              to_boolean rr = true -> returns inner) ->
  returns (get w (js "raw_response") <&&> inner).
Proof.
  intros Hw Hinner. apply returns_and; [by apply returns_get|].
  intros rr Hrr Htruthy. by eapply Hinner.
Qed.

Lemma returns_get2 w rr key :
  get w (js "raw_response") = Return rr -> to_boolean rr = true ->
  returns (get2 w (js "raw_response") key).
Proof.
  intros Hrr Htruthy. unfold get2. rewrite Hrr, bind_Return.
  by apply returns_get, truthy_not_nullish.
Qed.

Lemma shown_blobId_settles w : ~ nullish w -> truthy_or_null (shown_blobId w).
Proof.
  intros Hw. unfold shown_blobId. apply or_null.
  repeat (apply returns_or; [|by apply returns_get]).
  apply returns_or; [apply returns_or; by apply returns_get|].
  apply returns_raw_response; [done|]. intros rr Hrr Htruthy.
  apply returns_or; by eapply returns_get2.
Qed.

Lemma shown_objectId_settles w :
  ~ nullish w -> truthy_or_null (shown_objectId w).
Proof.
  intros Hw. unfold shown_objectId. apply or_null.
  apply returns_or; [|by apply returns_get].
  apply returns_or.
  - repeat (apply returns_or; [|by apply returns_get]). by apply returns_get.
  - apply returns_raw_response; [done|]. intros rr Hrr Htruthy.
    apply returns_or; by eapply returns_get2.
Qed.

Lemma shown_explorer_settles w :
  ~ nullish w -> truthy_or_null (shown_explorer w).
Proof.
  intros Hw. unfold shown_explorer. apply or_null.
  apply returns_or.
  - repeat (apply returns_or; [|by apply returns_get]). by apply returns_get.
  - apply returns_raw_response; [done|]. intros rr Hrr Htruthy.
    repeat (apply returns_or; [|by eapply returns_get2]).
    by eapply returns_get2.
Qed.

(** X10.  Computing the values of the Walrus panel never throws, whatever
    JSON the server answered: every property read is behind a test of the
    value it reads from.  The panel is drawn exactly when the answer has a
    truthy [walrus], and each of its three values is then either truthy or
    [null] (never [undefined], an empty string, zero or [false]), so the
    dash is shown exactly for [null]. *)
Theorem X10_walrus_panel_is_safe (result : jsval) :
  exists shown,
    walrus_panel result = Return shown
    /\ (is_Some shown
        <-> exists w, to_boolean result = true
                      /\ get result (js "walrus") = Return w
                      /\ to_boolean w = true)
    /\ forall p, shown = Some p ->
         (to_boolean (panel_blobId p) = true \/ panel_blobId p = null)
         /\ (to_boolean (panel_objectId p) = true \/ panel_objectId p = null)
         /\ (to_boolean (panel_explorer p) = true \/ panel_explorer p = null).
Proof.
  unfold walrus_panel.
  destruct (to_boolean result) eqn:Hresult.
  2: { exists None. split; [done|]. split; [|done].
       split; [by intros []|]. by intros (w & ? & _). }
  destruct (get_not_nullish result (js "walrus")
              (truthy_not_nullish _ Hresult)) as [w Hw].
  rewrite Hw, bind_Return.
  destruct (to_boolean w) eqn:Htruthy.
  2: { exists None. split; [done|]. split; [|done].
       split; [by intros []|]. intros (w' & _ & [= <-] & ?). congruence. }
  rewrite js_or_Return, Htruthy, bind_Return.
  pose proof (truthy_not_nullish _ Htruthy) as Hnn.
  destruct (shown_blobId_settles w Hnn) as (b & -> & Hb).
  destruct (shown_objectId_settles w Hnn) as (o & -> & Ho).
  destruct (shown_explorer_settles w Hnn) as (e & -> & He).
  rewrite !bind_Return. eexists. split; [reflexivity|]. split.
  - split; [|by eauto]. intros _. by exists w.
  - by intros p [= <-].
Qed.

(** X11.  The section shows what the uploader printed: when the object of
    the line that [upload] prints for a receipt with non-empty string
    identifiers is what the server answers under [walrus], the panel shows
    the blob id and the object id of the receipt, and its link is the
    [walrusURL]. *)
Theorem X11_panel_shows_the_receipt
    (raw : jsstring) (r : receipt) (b o : jsstring) :
  store raw = Return r ->
  blobId r = Some (JStr b) -> b <> [] ->
  objectId r = Some (JStr o) -> o <> [] ->
  exists w,
    JSON.parse (stringify_literal (final_fields r)) = Some w
    /\ forall answer,
         obj_get answer (js "walrus") = Some w ->
         walrus_panel (Some (JObj answer))
         = Return (Some {| panel_blobId := Some (JStr b);
                           panel_objectId := Some (JStr o);
                           panel_explorer := Some (JStr (walrusURL r)) |}).
Proof.
  intros Hstore Hb Hbne Ho Hone.
  destruct (store_Return raw r Hstore) as (arr & _ & Hparse).
  destruct (parseWalrus_Return arr r Hparse)
    as (entry & result & created & x & _ & _ & _ & _ & _ & _ & _ & Hurl & _).
  exists (JObj [(js "blobId", JStr b); (js "objectId", JStr o);
                (js "walrusURL", JStr (walrusURL r));
                (js "objectURL", JStr (objectURL r))]).
  split.
  - change (final_fields r)
      with [(js "blobId", blobId r); (js "objectId", objectId r);
            (js "walrusURL", Some (JStr (walrusURL r)));
            (js "objectURL", Some (JStr (objectURL r)))].
    rewrite Hb, Ho.
    exact (parse_stringify_text [(js "blobId", b); (js "objectId", o);
                                 (js "walrusURL", walrusURL r);
                                 (js "objectURL", objectURL r)]).
  - intros answer Hanswer. unfold walrus_panel. cbn [to_boolean get].
    rewrite Hanswer, bind_Return. cbn [to_boolean].
    rewrite js_or_Return. cbn [to_boolean]. rewrite bind_Return.
    destruct b as [|cb b]; [done|]. destruct o as [|co o]; [done|].
    assert (Hcons : exists c t, walrusURL r = c :: t)
      by (rewrite Hurl; by eexists _, _).
    destruct Hcons as (c & t & ->).
    reflexivity.
Qed.

(** X11 at the sample. *)
Lemma X11_panel_shows_the_receipt_witness :
  exists w,
    JSON.parse (stringify_literal (final_fields sample_receipt)) = Some w
    /\ forall answer,
         obj_get answer (js "walrus") = Some w ->
         walrus_panel (Some (JObj answer))
         = Return (Some {| panel_blobId := Some (JStr (js "b64:ABC123"));
                           panel_objectId := Some (JStr (js "0xDEAD"));
                           panel_explorer :=
                             Some (JStr (walrusURL sample_receipt)) |}).
Proof.
  apply (X11_panel_shows_the_receipt sample_output sample_receipt
           (js "b64:ABC123") (js "0xDEAD"));
    first [ by vm_compute | reflexivity ].
Defined.

Import UploadSection.


End Dashboard.
